(** * A periodic job scheduler: shallow embedding of [scheduler.py]

    The development follows the Python module: the classes [Scheduler] and
    [Job], their methods, and the library calls they rest on
    ([datetime], [str.split], [int], [sorted], [min], [time.sleep],
    the true division of integers).

    Modelling conventions.
    - Interpreter: CPython 3.11 or later, assertions enabled, the limit
      [sys.int_max_str_digits] at its default of 4300.  A
      [datetime.time] is always true there, so [if self.at_time] tests
      for [None] only.
    - A naive [datetime] is the number of microseconds since
      0001-01-01 00:00:00; a [timedelta] is a number of microseconds.
      Both have the bounded range of the library and raise
      [OverflowError] outside of it.
    - A [float] is a binary64 number, held as mantissa and exponent;
      [timedelta.total_seconds()] is the true division of the
      microseconds by a million, rounded as the interpreter rounds it.
    - The delay handed to [time.sleep] is a number of seconds that
      amounts to a whole number of microseconds: an integer, or a
      float that holds such a value exactly.  It is counted in
      microseconds.
    - [datetime.datetime.now()] reads a clock.  The clock is an oracle
      [clock : nat -> datetime]: the k-th reading made by the module is
      [clock k].  Nothing is assumed of it unless a statement says so.
    - A bound action is an identifier; what a call of it does to the
      scheduler is its outcome (return or raise), given by an oracle
      [outcome].  Actions return or raise, and do not themselves reach
      into the scheduler's collection or its jobs.
    - Objects live in a store ([heap]) and are named by references, so
      that a job mutated through one name is seen through every other.
    - Text is a string over code points below 256.
    - Logging is left out: it does not touch the jobs or the clock. *)

From Stdlib Require Import ZArith List String Ascii Bool Lia.
From Stdlib Require Import Sorting.Sorted Sorting.Permutation.
From Stdlib Require Import FunctionalExtensionality.
Import ListNotations.
Open Scope Z_scope.

(** ** Exceptions and results *)

Inductive exn : Type :=
| AssertionError
| ValueError
| TypeError
| OverflowError
| ActionError (code : nat).

Inductive result (A : Type) : Type :=
| Ok (a : A)
| Raise (e : exn).
Arguments Ok {A} a.
Arguments Raise {A} e.

Definition is_ok {A} (r : result A) : bool :=
  match r with Ok _ => true | Raise _ => false end.

(** ** Floating-point numbers *)

(** A [float] that is neither infinite nor a NaN: the number
    [mant * 2 ^ expo].  A number other than zero is held with
    [2 ^ 52 <= |mant| < 2 ^ 53], so that equal numbers are equal
    records. *)
Record float : Type := mkfloat { mant : Z; expo : Z }.

(** [num / den] rounded to the nearest integer, to the even one on a
    tie. *)
Definition round_half_even (num den : Z) : Z :=
  let q := num / den in
  let r := num mod den in
  if (den <? 2 * r) || ((den =? 2 * r) && Z.odd q) then q + 1 else q.

(** The exponent [e] at which [n / (b * 2 ^ e)] has 53 bits before the
    point. *)
Definition quotient_exponent (n b : Z) : Z :=
  let e0 := Z.log2 n - Z.log2 b - 53 in
  if 2 ^ 53 <=? (n * 2 ^ Z.max 0 (- e0)) / (b * 2 ^ Z.max 0 e0)
  then e0 + 1 else e0.

(** [a / b] on integers, for [0 < b]: the quotient rounded to the
    nearest float.  The quotients taken in this module are those of a
    [timedelta], which is below 10^9 days, by a million: they lie far
    from both ends of the exponent range. *)
Definition true_divide (a b : Z) : float :=
  if a =? 0 then mkfloat 0 0 else
  let n := Z.abs a in
  let e := quotient_exponent n b in
  let m := round_half_even (n * 2 ^ Z.max 0 (- e)) (b * 2 ^ Z.max 0 e) in
  if m =? 2 ^ 53 then mkfloat (Z.sgn a * 2 ^ 52) (e + 1)
  else mkfloat (Z.sgn a * m) e.

(** [x <= 0] on floats. *)
Definition float_nonpos (x : float) : Prop := mant x <= 0.

(** ** The [datetime] library *)

Module DT.

Definition datetime := Z.
Definition timedelta := Z.

(** [datetime.time]: the four fields of a naive time of day. *)
Record time : Type := mktime
  { hour : Z; minute : Z; second : Z; microsecond : Z }.

Definition us_per_second : Z := 1000000.
Definition us_per_minute : Z := 60 * us_per_second.
Definition us_per_hour : Z := 60 * us_per_minute.
Definition us_per_day : Z := 24 * us_per_hour.
Definition us_per_week : Z := 7 * us_per_day.

(** [date.max.toordinal()]: days from 0001-01-01 to 9999-12-31. *)
Definition max_ordinal : Z := 3652059.
(** [timedelta.max.days]. *)
Definition max_delta_days : Z := 999999999.

Definition valid (d : datetime) : bool :=
  (0 <=? d) && (d <? max_ordinal * us_per_day).

(** The constructor [timedelta(...)] normalises its arguments and
    refuses a day count of magnitude above [max_delta_days]. *)
Definition mk_timedelta (us : Z) : result timedelta :=
  let d := us / us_per_day in
  if (- max_delta_days <=? d) && (d <=? max_delta_days)
  then Ok us else Raise OverflowError.

(** [datetime + timedelta] and [datetime - timedelta]. *)
Definition add (d : datetime) (p : timedelta) : result datetime :=
  if valid (d + p) then Ok (d + p) else Raise OverflowError.

Definition sub (d : datetime) (p : timedelta) : result datetime :=
  add d (- p).

(** [timedelta.total_seconds()]. *)
Definition total_seconds (p : timedelta) : float :=
  true_divide p us_per_second.

Definition day_of (d : datetime) : Z := d / us_per_day.
Definition tod_of (d : datetime) : Z := d mod us_per_day.

Definition time_us (t : time) : Z :=
  hour t * us_per_hour + minute t * us_per_minute
  + second t * us_per_second + microsecond t.

Definition time_ok (t : time) : Prop :=
  0 <= hour t <= 23 /\ 0 <= minute t <= 59 /\
  0 <= second t <= 59 /\ 0 <= microsecond t <= 999999.

(** [datetime.time()]. *)
Definition time_of (d : datetime) : time :=
  let r := tod_of d in
  mktime (r / us_per_hour)
         ((r mod us_per_hour) / us_per_minute)
         ((r mod us_per_minute) / us_per_second)
         (r mod us_per_second).

(** [d.replace(hour=h, minute=m, second=s, microsecond=us)]: the date
    is kept, the whole time of day is overwritten.  The fields handed
    over are those of a [datetime.time], which holds them in range. *)
Definition replace (d : datetime) (h m s us : Z) : datetime :=
  day_of d * us_per_day
  + (h * us_per_hour + m * us_per_minute + s * us_per_second + us).

(** A time of day cut to the whole second. *)
Definition whole_second (t : time) : time :=
  mktime (hour t) (minute t) (second t) 0.

(** The one call of [replace] in the module: hour, minute and second
    of the anchor, and microsecond 0. *)
Definition replace_time (d : datetime) (t : time) : datetime :=
  replace d (hour t) (minute t) (second t) 0.

(** [a > b] on times: the order of the tuples
    (hour, minute, second, microsecond). *)
Definition time_gt (a b : time) : bool :=
  match hour a ?= hour b with
  | Gt => true
  | Lt => false
  | Eq =>
    match minute a ?= minute b with
    | Gt => true
    | Lt => false
    | Eq =>
      match second a ?= second b with
      | Gt => true
      | Lt => false
      | Eq => microsecond b <? microsecond a
      end
    end
  end.

End DT.

(** The cadence units a job can carry. *)
Inductive unit_name : Type :=
| Seconds | Minutes | Hours | Days | Weeks.

Definition unit_name_eqb (a b : unit_name) : bool :=
  match a, b with
  | Seconds, Seconds | Minutes, Minutes | Hours, Hours
  | Days, Days | Weeks, Weeks => true
  | _, _ => false
  end.

Definition unit_us (u : unit_name) : Z :=
  match u with
  | Seconds => DT.us_per_second
  | Minutes => DT.us_per_minute
  | Hours => DT.us_per_hour
  | Days => DT.us_per_day
  | Weeks => DT.us_per_week
  end.

(** [datetime.timedelta] called with the keyword [unit] set to [interval]. *)
Definition timedelta_of (u : unit_name) (interval : Z) : result DT.timedelta :=
  DT.mk_timedelta (interval * unit_us u).

(** ** Text: [str.split(':')] and [int(str)] *)

Definition colon : ascii := ":"%char.

(** [s.split(':')]: the fields between colons; never an empty list. *)
Fixpoint split_colon (s : string) : list string :=
  match s with
  | EmptyString => [EmptyString]
  | String c s' =>
    if Ascii.eqb c colon then EmptyString :: split_colon s'
    else match split_colon s' with
         | f :: fs => String c f :: fs
         | [] => [String c EmptyString]
         end
  end.

(** White space as [int] sees it: tab, line feed, vertical tab, form
    feed, carriage return, space, and in the upper half next-line and
    the no-break space. *)
Definition is_space (c : ascii) : bool :=
  let n := N_of_ascii c in
  (((9 <=? n) && (n <=? 13)) || (n =? 32) || (n =? 133) || (n =? 160))%N.

Definition digit_val (c : ascii) : option Z :=
  let n := N_of_ascii c in
  if ((48 <=? n) && (n <=? 57))%N then Some (Z.of_N n - 48) else None.

Fixpoint lstrip (s : string) : string :=
  match s with
  | EmptyString => EmptyString
  | String c s' => if is_space c then lstrip s' else s
  end.

Fixpoint rstrip (s : string) : string :=
  match s with
  | EmptyString => EmptyString
  | String c s' =>
    match rstrip s' with
    | EmptyString => if is_space c then EmptyString else String c EmptyString
    | r => String c r
    end
  end.

(** The digits after the first: a digit, or one underscore followed by
    a digit.  [after_us] says that the previous character was an
    underscore. *)
Fixpoint int_digits (acc : Z) (after_us : bool) (s : string) : option Z :=
  match s with
  | EmptyString => if after_us then None else Some acc
  | String c s' =>
    match digit_val c with
    | Some d => int_digits (10 * acc + d) false s'
    | None =>
      if Ascii.eqb c "_"%char && negb after_us
      then int_digits acc true s'
      else None
    end
  end.

(** The number of decimal digits in a text. *)
Fixpoint digit_count (s : string) : Z :=
  match s with
  | EmptyString => 0
  | String c s' =>
    (match digit_val c with Some _ => 1 | None => 0 end) + digit_count s'
  end.

(** [sys.int_max_str_digits], at its default. *)
Definition int_max_str_digits : Z := 4300.

(** A number without its sign: more digits than the limit are
    refused, leading zeros counted, underscores not. *)
Definition int_unsigned (s : string) : option Z :=
  match s with
  | EmptyString => None
  | String c s' =>
    match digit_val c with
    | Some d =>
      if int_max_str_digits <? digit_count s then None
      else int_digits d false s'
    | None => None
    end
  end.

(** [int(s)] in base ten: surrounding white space, an optional sign,
    then decimal digits, no more of them than the limit; anything else
    is a [ValueError]. *)
Definition int_of_str (s : string) : result Z :=
  let body := rstrip (lstrip s) in
  let r :=
    match body with
    | String "+"%char s' => int_unsigned s'
    | String "-"%char s' => option_map Z.opp (int_unsigned s')
    | _ => int_unsigned body
    end in
  match r with
  | Some n => Ok n
  | None => Raise ValueError
  end.

(** [[int(t) for t in fields]]: the first field that does not read as
    an integer raises. *)
Fixpoint ints_of (fields : list string) : result (list Z) :=
  match fields with
  | [] => Ok []
  | f :: fs =>
    match int_of_str f with
    | Raise e => Raise e
    | Ok n =>
      match ints_of fs with
      | Raise e => Raise e
      | Ok ns => Ok (n :: ns)
      end
    end
  end.

(** [hour, minute = [...]]: unpacking needs exactly two values. *)
Definition unpack2 (l : list Z) : result (Z * Z) :=
  match l with
  | [a; b] => Ok (a, b)
  | _ => Raise ValueError
  end.

Definition parse_fields (time_str : string) : result (Z * Z) :=
  match ints_of (split_colon time_str) with
  | Raise e => Raise e
  | Ok ns => unpack2 ns
  end.

(** ** Jobs, the store and the scheduler's state *)

Definition ref := nat.
Definition action := nat.

(** The attributes of a [Job] object, as [Job.__init__] lays them out. *)
Record Job : Type := mkJob
  { interval : Z;
    job_func : option action;
    unit : option unit_name;
    at_time : option DT.time;
    last_run : option DT.datetime;
    next_run : option DT.datetime;
    period : option DT.timedelta }.

Definition set_job_func (v : option action) (j : Job) : Job :=
  mkJob (interval j) v (unit j) (at_time j) (last_run j) (next_run j) (period j).
Definition set_unit (v : option unit_name) (j : Job) : Job :=
  mkJob (interval j) (job_func j) v (at_time j) (last_run j) (next_run j) (period j).
Definition set_at_time (v : option DT.time) (j : Job) : Job :=
  mkJob (interval j) (job_func j) (unit j) v (last_run j) (next_run j) (period j).
Definition set_last_run (v : option DT.datetime) (j : Job) : Job :=
  mkJob (interval j) (job_func j) (unit j) (at_time j) v (next_run j) (period j).
Definition set_next_run (v : option DT.datetime) (j : Job) : Job :=
  mkJob (interval j) (job_func j) (unit j) (at_time j) (last_run j) v (period j).
Definition set_period (v : option DT.timedelta) (j : Job) : Job :=
  mkJob (interval j) (job_func j) (unit j) (at_time j) (last_run j) (next_run j) v.

(** What the scheduler does to the world outside of it: it calls the
    action bound to a job, and it sleeps. *)
Inductive event : Type :=
| Invoke (r : ref) (a : action)
| Sleep (microseconds : Z).

(** The state a method runs in: the store of [Job] objects, the next
    free reference, the scheduler's list [self.jobs], the number of
    clock readings made so far, and the events so far. *)
Record World : Type := mkWorld
  { heap : ref -> Job;
    fresh : ref;
    jobs : list ref;
    ticks : nat;
    trace : list event }.

Definition update (h : ref -> Job) (r : ref) (j : Job) : ref -> Job :=
  fun r' => if Nat.eqb r' r then j else h r'.

(** ** The monad of methods: state, with exceptions that keep the state *)

Definition M (A : Type) : Type := World -> result A * World.

Definition ret {A} (a : A) : M A := fun w => (Ok a, w).
Definition raise {A} (e : exn) : M A := fun w => (Raise e, w).
Definition bind {A B} (m : M A) (k : A -> M B) : M B :=
  fun w =>
    match m w with
    | (Ok a, w') => k a w'
    | (Raise e, w') => (Raise e, w')
    end.
Definition lift {A} (r : result A) : M A := fun w => (r, w).

Declare Scope py_scope.
Delimit Scope py_scope with py.
Notation "x <- m ;; k" := (bind m (fun x => k))
  (at level 61, m at next level, right associativity) : py_scope.
Notation "m ;;; k" := (bind m (fun _ => k))
  (at level 61, right associativity) : py_scope.
Open Scope py_scope.

(** [assert b]. *)
Definition py_assert (b : bool) : M Datatypes.unit :=
  if b then ret tt else raise AssertionError.

Definition get (r : ref) : M Job := fun w => (Ok (heap w r), w).

(** An attribute assignment [r.x = v]. *)
Definition modify (r : ref) (f : Job -> Job) : M Datatypes.unit :=
  fun w =>
    (Ok tt, mkWorld (update (heap w) r (f (heap w r)))
                    (fresh w) (jobs w) (ticks w) (trace w)).

(** [for x in l: body(x)]. *)
Fixpoint for_each {A} (l : list A) (body : A -> M Datatypes.unit)
  : M Datatypes.unit :=
  match l with
  | [] => ret tt
  | x :: l' => body x ;;; for_each l' body
  end.

(** A generator [(x for x in l if p(x))], consumed to its end. *)
Fixpoint select {A} (p : A -> M bool) (l : list A) : M (list A) :=
  match l with
  | [] => ret []
  | x :: l' =>
    b <- p x ;;
    rest <- select p l' ;;
    ret (if b then x :: rest else rest)
  end.

(** The longest delay [time.sleep] takes, in microseconds: the delay
    is converted to a 64-bit count of nanoseconds. *)
Definition max_sleep : Z := (2 ^ 63 - 1) / 1000.

(** [time.sleep(d)], with the length [d] counted in microseconds.  The
    length is first converted to nanoseconds, which overflows beyond
    64 bits; then a negative length is refused. *)
Definition sleep (d : Z) : M Datatypes.unit :=
  fun w =>
    if (d * 1000 <? - 2 ^ 63) || (2 ^ 63 - 1 <? d * 1000)
    then (Raise OverflowError, w)
    else if d <? 0 then (Raise ValueError, w)
    else (Ok tt, mkWorld (heap w) (fresh w) (jobs w) (ticks w)
                         (trace w ++ [Sleep d])).

(** ** The methods of [Job] *)

Section JobMethods.

Variable clock : nat -> DT.datetime.
Variable outcome : action -> nat -> option exn.

(** [datetime.datetime.now()]. *)
Definition now : M DT.datetime :=
  fun w =>
    (Ok (clock (ticks w)),
     mkWorld (heap w) (fresh w) (jobs w) (S (ticks w)) (trace w)).

(** [self.job_func()] on job [r]: calling [None] is a [TypeError];
    calling an action is an event, and returns or raises as the
    action does. *)
Definition call (r : ref) (f : option action) : M Datatypes.unit :=
  match f with
  | None => raise TypeError
  | Some a =>
    fun w =>
      let w' := mkWorld (heap w) (fresh w) (jobs w) (ticks w)
                        (trace w ++ [Invoke r a]) in
      match outcome a (List.length (trace w)) with
      | None => (Ok tt, w')
      | Some e => (Raise e, w')
      end
  end.

Definition seconds (r : ref) : M ref :=
  modify r (set_unit (Some Seconds)) ;;; ret r.
Definition second (r : ref) : M ref :=
  j <- get r ;; py_assert (interval j =? 1) ;;; seconds r.

Definition minutes (r : ref) : M ref :=
  modify r (set_unit (Some Minutes)) ;;; ret r.
Definition minute (r : ref) : M ref :=
  j <- get r ;; py_assert (interval j =? 1) ;;; minutes r.

Definition hours (r : ref) : M ref :=
  modify r (set_unit (Some Hours)) ;;; ret r.
Definition hour (r : ref) : M ref :=
  j <- get r ;; py_assert (interval j =? 1) ;;; hours r.

Definition days (r : ref) : M ref :=
  modify r (set_unit (Some Days)) ;;; ret r.
Definition day (r : ref) : M ref :=
  j <- get r ;; py_assert (interval j =? 1) ;;; days r.

Definition weeks (r : ref) : M ref :=
  modify r (set_unit (Some Weeks)) ;;; ret r.
Definition week (r : ref) : M ref :=
  j <- get r ;; py_assert (interval j =? 1) ;;; weeks r.

Definition is_days (u : option unit_name) : bool :=
  match u with Some Days => true | _ => false end.

(** [Job.at(time_str)]. *)
Definition at_ (r : ref) (time_str : string) : M ref :=
  j <- get r ;;
  py_assert (is_days (unit j)) ;;;
  hm <- lift (parse_fields time_str) ;;
  py_assert ((0 <=? fst hm) && (fst hm <=? 23)) ;;;
  py_assert ((0 <=? snd hm) && (snd hm <=? 59)) ;;;
  modify r (set_at_time (Some (DT.mktime (fst hm) (snd hm) 0 0))) ;;;
  ret r.

(** [Job._schedule_next_run()]. *)
Definition _schedule_next_run (r : ref) : M Datatypes.unit :=
  j <- get r ;;
  u <- match unit j with
       | Some u => ret u
       | None => raise AssertionError
       end ;;
  p <- lift (timedelta_of u (interval j)) ;;
  modify r (set_period (Some p)) ;;;
  t1 <- now ;;
  n <- lift (DT.add t1 p) ;;
  modify r (set_next_run (Some n)) ;;;
  match at_time j with
  | None => ret tt
  | Some a =>
    py_assert (unit_name_eqb u Days) ;;;
    let n' := DT.replace n (DT.hour a) (DT.minute a) (DT.second a) 0 in
    modify r (set_next_run (Some n')) ;;;
    match last_run j with
    | Some _ => ret tt
    | None =>
      t2 <- now ;;
      if DT.time_gt a (DT.time_of t2)
      then n'' <- lift (DT.sub n' DT.us_per_day) ;;
           modify r (set_next_run (Some n''))
      else ret tt
    end
  end.

(** [Job.do(job_func, ...)]: the action with its bound arguments is
    the identifier [f]. *)
Definition do_ (r : ref) (f : action) : M ref :=
  modify r (set_job_func (Some f)) ;;;
  _schedule_next_run r ;;;
  ret r.

(** [Job.should_run]: comparing with an absent [next_run] is a
    [TypeError]. *)
Definition should_run (r : ref) : M bool :=
  t <- now ;;
  j <- get r ;;
  match next_run j with
  | Some n => ret (n <=? t)
  | None => raise TypeError
  end.

(** [Job.run()].  The call of the logger that opens it changes nothing
    here: the record is formatted by the logging library, which keeps
    to itself whatever goes wrong in doing so. *)
Definition run (r : ref) : M Datatypes.unit :=
  j <- get r ;;
  call r (job_func j) ;;;
  t <- now ;;
  modify r (set_last_run (Some t)) ;;;
  _schedule_next_run r.

(** [Job.__lt__]. *)
Definition job_lt (a b : ref) : M bool :=
  ja <- get a ;;
  jb <- get b ;;
  match next_run ja, next_run jb with
  | Some x, Some y => ret (x <? y)
  | _, _ => raise TypeError
  end.

End JobMethods.

(** ** The methods of [Scheduler] *)

Module Scheduler.

Section Methods.

Variable clock : nat -> DT.datetime.
Variable outcome : action -> nat -> option exn.

Definition get_jobs : M (list ref) := fun w => (Ok (jobs w), w).

(** [sorted]: a stable sort that compares with [<] only.  The result
    of a stable sort is fixed by the order, so the insertion sort
    below returns the list the library returns; a comparison that
    raises ends it. *)
Fixpoint insert (x : ref) (l : list ref) : M (list ref) :=
  match l with
  | [] => ret [x]
  | y :: l' =>
    b <- job_lt y x ;;
    if b then rest <- insert x l' ;; ret (y :: rest)
    else ret (x :: l)
  end.

Fixpoint sorted (l : list ref) : M (list ref) :=
  match l with
  | [] => ret []
  | x :: l' => s <- sorted l' ;; insert x s
  end.

(** [min]: the first least element; an empty argument is a
    [ValueError]. *)
Fixpoint min_from (m : ref) (l : list ref) : M ref :=
  match l with
  | [] => ret m
  | x :: l' => b <- job_lt x m ;; min_from (if b then x else m) l'
  end.

Definition py_min (l : list ref) : M ref :=
  match l with
  | [] => raise ValueError
  | x :: l' => min_from x l'
  end.

Definition run_pending : M Datatypes.unit :=
  js <- get_jobs ;;
  runnable_jobs <- select (should_run clock) js ;;
  ordered <- sorted runnable_jobs ;;
  for_each ordered (run clock outcome).

(** [run_all(delay_seconds)], without its call of the logger. *)
Definition run_all (delay_seconds : Z) : M Datatypes.unit :=
  js <- get_jobs ;;
  for_each js (fun job => run clock outcome job ;;; sleep delay_seconds).

Definition clear : M Datatypes.unit :=
  fun w => (Ok tt, mkWorld (heap w) (fresh w) [] (ticks w) (trace w)).

Definition new_job (interval : Z) : Job :=
  mkJob interval None None None None None None.

Definition every (interval : Z) : M ref :=
  fun w =>
    (Ok (fresh w),
     mkWorld (update (heap w) (fresh w) (new_job interval))
             (S (fresh w)) (jobs w ++ [fresh w]) (ticks w) (trace w)).

Definition next_run : M (option DT.datetime) :=
  js <- get_jobs ;;
  m <- py_min js ;;
  j <- get m ;;
  ret (next_run j).

(** [idle_seconds]: the difference of the two instants, a
    [timedelta], in seconds as a float. *)
Definition idle_seconds : M float :=
  n <- next_run ;;
  t <- now clock ;;
  match n with
  | Some n => ret (DT.total_seconds (n - t))
  | None => raise TypeError
  end.

End Methods.

End Scheduler.

(** ** Configuration calls *)

(** The calls that configure a job before [do]: the cadence
    selectors, singular and plural, and [at]. *)
Inductive config_call : Type :=
| Csecond | Cseconds | Cminute | Cminutes | Chour | Chours
| Cday | Cdays | Cweek | Cweeks
| Cat (time_str : string).

Definition config_step (c : config_call) (r : ref) : M ref :=
  match c with
  | Csecond => second r
  | Cseconds => seconds r
  | Cminute => minute r
  | Cminutes => minutes r
  | Chour => hour r
  | Chours => hours r
  | Cday => day r
  | Cdays => days r
  | Cweek => week r
  | Cweeks => weeks r
  | Cat s => at_ r s
  end.

(** The calls of [cs] made on job [r] one after the other; a call
    that raises leaves the world it raised in, and the caller goes
    on. *)
Fixpoint configure (cs : list config_call) (r : ref) (w : World) : World :=
  match cs with
  | [] => w
  | c :: cs' => configure cs' r (snd (config_step c r w))
  end.

(** ** Vocabulary of the statements *)

(** What a method may change of the world when it works on job [r]:
    the attributes of [r] that the rescheduling writes, the tick count
    and the trace.  Everything else is as before. *)
Record touches_only (r : ref) (w w' : World) : Prop :=
  { to_fresh : fresh w' = fresh w;
    to_jobs : jobs w' = jobs w;
    to_other : forall r', r' <> r -> heap w' r' = heap w r';
    to_interval : interval (heap w' r) = interval (heap w r);
    to_job_func : job_func (heap w' r) = job_func (heap w r);
    to_unit : unit (heap w' r) = unit (heap w r);
    to_at_time : at_time (heap w' r) = at_time (heap w r) }.

(** The instant the rescheduling of a job that has run before arrives
    at, from the clock reading [t1]: the period later, with the time
    of day overwritten by the anchor when there is one. *)
Definition next_due (j : Job) (u : unit_name) (t1 : DT.datetime) : DT.datetime :=
  let n := t1 + interval j * unit_us u in
  match at_time j with
  | None => n
  | Some a => DT.replace_time n a
  end.

(** The attributes of a job after a completed run that read the clock
    at [t0] for [last_run] and at [t1] for the new schedule. *)
Definition after_run (t0 t1 : DT.datetime) (u : unit_name) (j : Job) : Job :=
  mkJob (interval j) (job_func j) (unit j) (at_time j)
        (Some t0) (Some (next_due j u t1)) (Some (interval j * unit_us u)).

(** A job that has been configured to the end, whose action returns
    whenever it is called, and whose schedule stays within the range
    of [datetime] on the clock at hand. *)
Definition ready (clock : nat -> DT.datetime)
  (outcome : action -> nat -> option exn) (j : Job) : Prop :=
  exists a u,
    job_func j = Some a /\ unit j = Some u /\
    (at_time j <> None -> u = Days) /\
    timedelta_of u (interval j) = Ok (interval j * unit_us u) /\
    (forall k, DT.valid (clock k + interval j * unit_us u) = true) /\
    (forall n, outcome a n = None).

Definition the_unit (j : Job) : unit_name :=
  match unit j with Some u => u | None => Seconds end.

Definition the_action (j : Job) : action :=
  match job_func j with Some a => a | None => O end.

(** The [next_run] of the job at [r], for jobs that have one. *)
Definition due_at (h : ref -> Job) (r : ref) : DT.datetime :=
  match next_run (h r) with Some n => n | None => 0 end.

(** The jobs of [l] that the selection of [run_pending] keeps, when
    the first of them is checked at clock reading [k]: each job is
    compared with a reading of its own. *)
Fixpoint due_from (clock : nat -> DT.datetime) (h : ref -> Job) (k : nat)
  (l : list ref) : list ref :=
  match l with
  | [] => []
  | r :: l' =>
    if due_at h r <=? clock k
    then r :: due_from clock h (S k) l'
    else due_from clock h (S k) l'
  end.

(** The stable insertion sort by [next_run], without the store. *)
Fixpoint place (h : ref -> Job) (x : ref) (l : list ref) : list ref :=
  match l with
  | [] => [x]
  | y :: l' => if due_at h y <? due_at h x then y :: place h x l' else x :: l
  end.

Fixpoint by_next_run (h : ref -> Job) (l : list ref) : list ref :=
  match l with
  | [] => []
  | x :: l' => place h x (by_next_run h l')
  end.

(** The world after job [r] has run to the end, followed by the
    events [post]. *)
Definition ran (clock : nat -> DT.datetime) (post : list event) (r : ref)
  (w : World) : World :=
  mkWorld
    (update (heap w) r
       (after_run (clock (ticks w)) (clock (S (ticks w)))
                  (the_unit (heap w r)) (heap w r)))
    (fresh w) (jobs w) (S (S (ticks w)))
    (trace w ++ Invoke r (the_action (heap w r)) :: post).

Fixpoint ran_all (clock : nat -> DT.datetime) (post : list event)
  (l : list ref) (w : World) : World :=
  match l with
  | [] => w
  | r :: l' => ran_all clock post l' (ran clock post r w)
  end.

(** The events of running the jobs of [l] in turn. *)
Definition runs_of (h : ref -> Job) (post : list event) (l : list ref)
  : list event :=
  flat_map (fun r => Invoke r (the_action (h r)) :: post) l.

(** A job that has a [next_run]: [do] completed on it. *)
Definition has_next_run (w : World) (r : ref) : Prop :=
  next_run (heap w r) <> None.

(** The order [run_pending] runs the due jobs in. *)
Definition before (h : ref -> Job) (a b : ref) : Prop :=
  due_at h a <= due_at h b.

(** Two worlds with the same collection and the same configuration of
    every job: interval, action, unit and anchor. *)
Record same_config (w w' : World) : Prop :=
  { sc_fresh : fresh w' = fresh w;
    sc_jobs : jobs w' = jobs w;
    sc_interval : forall r, interval (heap w' r) = interval (heap w r);
    sc_job_func : forall r, job_func (heap w' r) = job_func (heap w r);
    sc_unit : forall r, unit (heap w' r) = unit (heap w r);
    sc_at_time : forall r, at_time (heap w' r) = at_time (heap w r) }.

(** ** The texts [at] is specified on, and the texts [int] reads

    Two descriptions that are not taken from the module, against
    which its parsing is compared: the time string of the
    specification, and the integer literals of the language
    reference, which [int] is documented to read.  They are written
    without the functions of the parser: characters are classed by the
    tables below. *)

Definition digit_chars : list (ascii * Z) :=
  [("0"%char, 0); ("1"%char, 1); ("2"%char, 2); ("3"%char, 3);
   ("4"%char, 4); ("5"%char, 5); ("6"%char, 6); ("7"%char, 7);
   ("8"%char, 8); ("9"%char, 9)].

(** The digit a character shows, if it is one of the ten. *)
Definition digit_of (c : ascii) : option Z :=
  option_map snd (find (fun p => Ascii.eqb c (fst p)) digit_chars).

(** White space below code point 256: tab, line feed, vertical tab,
    form feed, carriage return, space, next line, no-break space. *)
Definition white_space : list ascii :=
  map ascii_of_nat [9; 10; 11; 12; 13; 32; 133; 160]%nat.

Definition is_white (c : ascii) : bool := existsb (Ascii.eqb c) white_space.
Arguments is_white : simpl never.
Arguments digit_of : simpl never.

(** A field of the specification's time string: one decimal digit, or
    two. *)
Definition spec_field (s : string) : option Z :=
  match s with
  | String c EmptyString => digit_of c
  | String c (String d EmptyString) =>
    match digit_of c, digit_of d with
    | Some x, Some y => Some (10 * x + y)
    | _, _ => None
    end
  | _ => None
  end.

(** The specification's [HH:MM], zero-padded or not: hour [h] and
    minute [m], written around a colon. *)
Definition spec_hh_mm (s : string) (h m : Z) : Prop :=
  exists a b,
    s = (a ++ String ":" b)%string /\
    spec_field a = Some h /\ spec_field b = Some m.

Fixpoint blank (s : string) : bool :=
  match s with
  | EmptyString => true
  | String c s' => is_white c && blank s'
  end.

Fixpoint no_colon (s : string) : bool :=
  match s with
  | EmptyString => true
  | String c s' => negb (Ascii.eqb c ":") && no_colon s'
  end.

(** The number of decimal digits in a text. *)
Fixpoint digits_in (s : string) : Z :=
  match s with
  | EmptyString => 0
  | String c s' =>
    (match digit_of c with Some _ => 1 | None => 0 end) + digits_in s'
  end.

(** [digit_tail acc s v]: the text [s] is a run of digits, each of
    them possibly after one underscore, that continues a number whose
    digits so far are worth [acc]; the whole number is [v]. *)
Inductive digit_tail : Z -> string -> Z -> Prop :=
| tail_end acc : digit_tail acc EmptyString acc
| tail_digit acc c d s v :
    digit_of c = Some d -> digit_tail (10 * acc + d) s v ->
    digit_tail acc (String c s) v
| tail_underscore acc c d s v :
    digit_of c = Some d -> digit_tail (10 * acc + d) s v ->
    digit_tail acc (String "_" (String c s)) v.

(** A decimal integer: a digit, then digits, with single underscores
    between digits allowed. *)
Inductive decinteger : string -> Z -> Prop :=
| dec_digits c d s v :
    digit_of c = Some d -> digit_tail d s v -> decinteger (String c s) v.

Inductive signed_integer : string -> Z -> Prop :=
| signed_none s v : decinteger s v -> signed_integer s v
| signed_plus s v : decinteger s v -> signed_integer (String "+" s) v
| signed_minus s v : decinteger s v -> signed_integer (String "-" s) (- v).

(** The texts that denote an integer for [int]: a signed decimal
    integer of at most 4300 digits, with white space allowed before
    and after it. *)
Definition int_literal (s : string) (n : Z) : Prop :=
  exists pre body post,
    s = (pre ++ body ++ post)%string /\
    blank pre = true /\ blank post = true /\
    signed_integer body n /\
    digits_in body <= 4300.

(** The texts that denote an hour and a minute for [at]: two integer
    literals around the only colon. *)
Definition time_text (s : string) (h m : Z) : Prop :=
  exists a b,
    s = (a ++ String ":" b)%string /\
    no_colon a = true /\ no_colon b = true /\
    int_literal a h /\ int_literal b m.

(** A text that ends in a character other than white space. *)
Fixpoint solid_end (s : string) : bool :=
  match s with
  | EmptyString => false
  | String c s' =>
    match s' with
    | EmptyString => negb (is_white c)
    | _ => solid_end s'
    end
  end.

(** ** Sample worlds for the examples *)

(** A world before any call: no job, no reading, no event. *)
Definition empty_world : World :=
  mkWorld (fun _ => Scheduler.new_job 1) O [] O [].

(** The instant [h]:[m]:[s] of day number [d]. *)
Definition instant (d h m s : Z) : DT.datetime :=
  d * DT.us_per_day + h * DT.us_per_hour + m * DT.us_per_minute
  + s * DT.us_per_second.

(** A clock that starts at [t0] and is one second further at each
    reading, up to the hundredth. *)
Definition ticking (t0 : DT.datetime) : nat -> DT.datetime :=
  fun k => t0 + Z.of_nat (Nat.min k 100) * DT.us_per_second.

Definition always_returns : action -> nat -> option exn :=
  fun _ _ => None.

Definition always_raises (e : exn) : action -> nat -> option exn :=
  fun _ _ => Some e.

(** A job configured by [every(1).seconds.do(f)]. *)
Definition one_second_job (clock : nat -> DT.datetime) (f : action) : M ref :=
  r <- Scheduler.every 1 ;; _ <- seconds r ;; do_ clock r f.

(** The instant the due-time algorithm arrives at for job [j] of unit
    [u], from the clock reading [t1] it starts from and, on the first
    schedule of an anchored job, the reading [t2] it compares the
    anchor with. *)
Definition due_time (j : Job) (u : unit_name) (t1 t2 : DT.datetime)
  : DT.datetime :=
  let n := t1 + interval j * unit_us u in
  match at_time j with
  | None => n
  | Some a =>
    match last_run j with
    | Some _ => DT.replace_time n a
    | None =>
      if DT.time_gt a (DT.time_of t2)
      then DT.replace_time n a - DT.us_per_day
      else DT.replace_time n a
    end
  end.

(** The number of clock readings the due-time algorithm makes. *)
Definition readings (j : Job) : nat :=
  match at_time j, last_run j with
  | Some _, None => 2
  | _, _ => 1
  end.

(** The world after a rescheduling of job [r] that completed. *)
Definition scheduled (clock : nat -> DT.datetime) (r : ref) (u : unit_name)
  (w : World) : World :=
  let j := heap w r in
  mkWorld
    (update (heap w) r
       (set_next_run
          (Some (due_time j u (clock (ticks w)) (clock (S (ticks w)))))
          (set_period (Some (interval j * unit_us u)) j)))
    (fresh w) (jobs w) (readings j + ticks w) (trace w).

(** A job configured by [every(1).days.at(s).do(f)]. *)
Definition daily_at (clock : nat -> DT.datetime) (s : string) (f : action)
  : M ref :=
  r <- Scheduler.every 1 ;; _ <- days r ;; _ <- at_ r s ;; do_ clock r f.

(** A ticking clock that is [gap] further from reading [from] on: the
    time the caller let pass between two calls. *)
Definition jumping (t0 : DT.datetime) (from : nat) (gap : Z)
  : nat -> DT.datetime :=
  fun k => ticking t0 k + (if (from <=? k)%nat then gap else 0).

(** Three jobs, configured in turn by [every(5).seconds.do(1)],
    [every(2).seconds.do(2)] and [every(1).hours.do(3)]. *)
Definition three_jobs (clock : nat -> DT.datetime) : M ref :=
  r0 <- Scheduler.every 5 ;; _ <- seconds r0 ;; _ <- do_ clock r0 1%nat ;;
  r1 <- Scheduler.every 2 ;; _ <- seconds r1 ;; _ <- do_ clock r1 2%nat ;;
  r2 <- Scheduler.every 1 ;; _ <- hours r2 ;; do_ clock r2 3%nat.

(** The clock of the examples: three readings from 09:00:00 on, one
    second apart, and the later ones ten seconds further. *)
Definition sample_clock : nat -> DT.datetime :=
  jumping (instant 738000 9 0 0) 3 (10 * DT.us_per_second).

Definition sample_world : World :=
  snd (three_jobs sample_clock empty_world).

(** Two jobs, configured by [every(5).minutes.do(1)] and
    [every(2).hours.do(2)]. *)
Definition two_slow_jobs (clock : nat -> DT.datetime) : M ref :=
  r0 <- Scheduler.every 5 ;; _ <- minutes r0 ;; _ <- do_ clock r0 1%nat ;;
  r1 <- Scheduler.every 2 ;; _ <- hours r1 ;; do_ clock r1 2%nat.

(** The character [c], [n] times. *)
Fixpoint copies (n : nat) (c : ascii) : string :=
  match n with
  | O => EmptyString
  | S n' => String c (copies n' c)
  end.

(** The action [a] raises [e] whenever it is called; every other
    action returns. *)
Definition raising_only (a : action) (e : exn) : action -> nat -> option exn :=
  fun a' _ => if Nat.eqb a' a then Some e else None.

(** A job configured by [every(1).days.at("10:30").seconds.do(f)]: the
    anchor is accepted while the unit is days, and the unit is changed
    afterwards. *)
Definition anchored_seconds_job (clock : nat -> DT.datetime) (f : action)
  : M ref :=
  r <- Scheduler.every 1 ;; _ <- days r ;; _ <- at_ r "10:30" ;;
  _ <- seconds r ;; do_ clock r f.

(** [x] occurs in [l], and [y] occurs somewhere after it. *)
Definition precedes {A} (x y : A) (l : list A) : Prop :=
  exists l1 l2, l = l1 ++ x :: l2 /\ In y l2.

(** Two jobs, configured in turn by [every(2).seconds.do(1)] and
    [every(1).seconds.do(2)]: on a clock that ticks once a second they
    get the same [next_run]. *)
Definition tied_jobs (clock : nat -> DT.datetime) : M ref :=
  r0 <- Scheduler.every 2 ;; _ <- seconds r0 ;; _ <- do_ clock r0 1%nat ;;
  r1 <- Scheduler.every 1 ;; _ <- seconds r1 ;; do_ clock r1 2%nat.

(** The character of a decimal digit. *)
Definition digit_char (d : Z) : ascii := ascii_of_N (Z.to_N (48 + d)).

(** A number below 100 written with two digits, [08], and with no more
    digits than it needs, [8]. *)
Definition two_digits (n : Z) : string :=
  String (digit_char (n / 10)) (String (digit_char (n mod 10)) EmptyString).

Definition decimal (n : Z) : string :=
  if n <? 10 then String (digit_char n) EmptyString else two_digits n.

Definition written (s : string) (n : Z) : Prop :=
  s = two_digits n \/ s = decimal n.

(* ================================================================== *)
(** * Properties *)

Example split_colon_ex :
  split_colon "10:30:00" = ["10"; "30"; "00"]%string /\
  split_colon EmptyString = [EmptyString] /\
  split_colon ":" = [EmptyString; EmptyString].
Proof. repeat split; reflexivity. Qed.

Example int_of_str_ex :
  int_of_str " +07 " = Ok 7 /\ int_of_str "1_0" = Ok 10 /\
  int_of_str "-0" = Ok 0 /\ int_of_str "1__0" = Raise ValueError /\
  int_of_str EmptyString = Raise ValueError /\
  int_of_str "- 5" = Raise ValueError /\
  int_of_str "abc" = Raise ValueError /\ int_of_str "5 5" = Raise ValueError.
Proof. repeat split; reflexivity. Qed.

(** ** Stepping through monadic code *)

Lemma bind_ok {A B} (m : M A) (k : A -> M B) w a w' :
  m w = (Ok a, w') -> bind m k w = k a w'.
Proof. intros H. unfold bind. rewrite H. reflexivity. Qed.

Lemma bind_raise {A B} (m : M A) (k : A -> M B) w e w' :
  m w = (Raise e, w') -> bind m k w = (Raise e, w').
Proof. intros H. unfold bind. rewrite H. reflexivity. Qed.

Lemma update_same h r j : update h r j r = j.
Proof. unfold update. rewrite Nat.eqb_refl. reflexivity. Qed.

Lemma update_other h r j r' : r' <> r -> update h r j r' = h r'.
Proof.
  intros H. unfold update. destruct (Nat.eqb_spec r' r); congruence.
Qed.

Lemma touches_only_refl r w : touches_only r w w.
Proof. split; auto. Qed.

Lemma touches_only_trans r w1 w2 w3 :
  touches_only r w1 w2 -> touches_only r w2 w3 -> touches_only r w1 w3.
Proof.
  intros [] []; split; try congruence.
  intros r' Hr'. rewrite to_other1, to_other0; auto.
Qed.

Ltac step :=
  match goal with
  | |- context [match ?x with _ => _ end] =>
    lazymatch x with
    | context [match _ with _ => _ end] => fail
    | _ => destruct x eqn:?
    end
  end.

Lemma schedule_touches_only clock r w :
  touches_only r w (snd (_schedule_next_run clock r w)).
Proof.
  unfold _schedule_next_run, bind, get, lift, modify, now, py_assert, ret, raise.
  repeat (step; cbn [snd fst]);
    split; cbn [fresh jobs heap ticks trace]; auto;
    try (intros r' Hr'; rewrite ?update_other by auto; reflexivity);
    rewrite ?update_same; reflexivity.
Qed.

(** ** The store *)

Lemma update_update h r j1 j2 : update (update h r j1) r j2 = update h r j2.
Proof.
  apply functional_extensionality. intros r'.
  unfold update. destruct (Nat.eqb r' r); reflexivity.
Qed.

Lemma update_id h r : update h r (h r) = h.
Proof.
  apply functional_extensionality. intros r'.
  unfold update. destruct (Nat.eqb_spec r' r); congruence.
Qed.

(** ** [Job.run] and [Job._schedule_next_run], step by step *)

Ltac unfold_m :=
  unfold bind, get, lift, modify, now, py_assert, ret, raise, call, sleep;
  cbn [fst snd heap fresh jobs ticks trace].

Arguments _schedule_next_run : simpl never.
Arguments run : simpl never.
Arguments at_ : simpl never.
Arguments do_ : simpl never.
Arguments should_run : simpl never.

Ltac simpl_heap :=
  repeat (progress (rewrite ?update_update, ?update_same; cbn)).

(** A run of a ready job whose action returns: one event, two clock
    readings, and the job's attributes as [after_run] gives them. *)
Lemma run_ready clock outcome r w a u :
  job_func (heap w r) = Some a ->
  unit (heap w r) = Some u ->
  (at_time (heap w r) <> None -> u = Days) ->
  timedelta_of u (interval (heap w r)) = Ok (interval (heap w r) * unit_us u) ->
  DT.valid (clock (S (ticks w)) + interval (heap w r) * unit_us u) = true ->
  outcome a (List.length (trace w)) = None ->
  run clock outcome r w =
  (Ok tt,
   mkWorld (update (heap w) r
              (after_run (clock (ticks w)) (clock (S (ticks w))) u (heap w r)))
           (fresh w) (jobs w) (S (S (ticks w))) (trace w ++ [Invoke r a])).
Proof.
  intros Hf Hu Hat Htd Hv Ho.
  unfold run, _schedule_next_run. unfold_m.
  rewrite Hf. cbn. rewrite Ho. cbn.
  rewrite !update_same. cbn. rewrite Hu, Htd. cbn.
  unfold DT.add. rewrite Hv. cbn.
  rewrite !update_update, !update_same.
  unfold after_run, next_due, set_period, set_next_run, set_last_run. cbn.
  destruct (at_time (heap w r)) as [t|] eqn:Ht; cbn.
  - assert (u = Days) by (apply Hat; discriminate). subst u. cbn.
    simpl_heap. reflexivity.
  - reflexivity.
Qed.

Lemma schedule_keeps_last_run clock r w :
  last_run (heap (snd (_schedule_next_run clock r w)) r) = last_run (heap w r).
Proof.
  unfold _schedule_next_run. unfold_m.
  repeat (step; cbn [snd fst heap]); rewrite ?update_same;
    unfold set_next_run, set_period; cbn [last_run]; congruence.
Qed.

(** ** The outcome of a run (claim C1) *)

(** C1, as amended.  [run()] propagates the failure of the bound
    action to its caller, and then leaves the job as it was:
    [last_run] and [next_run] are not written.  When the action
    returns, [run()] sets [last_run] to the clock reading and hands
    over to the due-time algorithm, which keeps that [last_run]. *)
Theorem run_reschedules_only_on_return clock outcome w r a
  (Hf : job_func (heap w r) = Some a) :
  match outcome a (List.length (trace w)) with
  | Some e =>
    run clock outcome r w =
    (Raise e,
     mkWorld (heap w) (fresh w) (jobs w) (ticks w) (trace w ++ [Invoke r a]))
  | None =>
    run clock outcome r w =
    _schedule_next_run clock r
      (mkWorld (update (heap w) r
                  (set_last_run (Some (clock (ticks w))) (heap w r)))
               (fresh w) (jobs w) (S (ticks w)) (trace w ++ [Invoke r a]))
    /\ last_run (heap (snd (run clock outcome r w)) r) = Some (clock (ticks w))
  end.
Proof.
  destruct (outcome a (List.length (trace w))) as [e|] eqn:Ho.
  - unfold run. unfold_m. rewrite Hf. cbn. rewrite Ho. reflexivity.
  - assert (E : run clock outcome r w =
      _schedule_next_run clock r
        (mkWorld (update (heap w) r
                    (set_last_run (Some (clock (ticks w))) (heap w r)))
                 (fresh w) (jobs w) (S (ticks w)) (trace w ++ [Invoke r a]))).
    { unfold run. unfold_m. rewrite Hf. cbn. rewrite Ho. reflexivity. }
    split; [exact E|].
    rewrite E, schedule_keeps_last_run. cbn. rewrite update_same. reflexivity.
Qed.

Lemma run_reschedules_only_on_return_witness :
  let clock := ticking (instant 738000 9 0 0) in
  let outcome := always_raises (ActionError 1) in
  let w := snd (one_second_job clock 7%nat empty_world) in
  job_func (heap w O) = Some 7%nat /\
  run clock outcome O w =
  (Raise (ActionError 1),
   mkWorld (heap w) (fresh w) (jobs w) (ticks w) (trace w ++ [Invoke O 7%nat])).
Proof.
  split; [reflexivity|].
  exact (run_reschedules_only_on_return
           (ticking (instant 738000 9 0 0)) (always_raises (ActionError 1))
           (snd (one_second_job (ticking (instant 738000 9 0 0)) 7%nat
                   empty_world))
           O 7%nat eq_refl).
Defined.

(** C1 as stated fails: the action of a job raises, and after the
    failed [run()] the job has no [last_run], and the [next_run] it
    had before. *)
Lemma run_failure_skips_bookkeeping :
  let clock := ticking (instant 738000 9 0 0) in
  let outcome := always_raises (ActionError 1) in
  let w := snd (one_second_job clock 7%nat empty_world) in
  let res := run clock outcome O w in
  fst res = Raise (ActionError 1) /\
  last_run (heap (snd res) O) = None /\
  next_run (heap w O) = Some (instant 738000 9 0 1) /\
  next_run (heap (snd res) O) = Some (instant 738000 9 0 1).
Proof. repeat split; reflexivity. Qed.

(** ** Arithmetic of dates and times of day *)

Module DTFacts.

Lemma tod_range d : 0 <= DT.tod_of d < DT.us_per_day.
Proof. unfold DT.tod_of. apply Z.mod_pos_bound. reflexivity. Qed.

Lemma day_tod d : d = DT.day_of d * DT.us_per_day + DT.tod_of d.
Proof.
  unfold DT.day_of, DT.tod_of.
  change DT.us_per_day with 86400000000.
  Z.div_mod_to_equations. lia.
Qed.

Lemma time_us_range t : DT.time_ok t -> 0 <= DT.time_us t < DT.us_per_day.
Proof.
  unfold DT.time_ok, DT.time_us, DT.us_per_day, DT.us_per_hour,
    DT.us_per_minute, DT.us_per_second.
  lia.
Qed.

Lemma time_of_ok d : DT.time_ok (DT.time_of d).
Proof.
  pose proof (tod_range d) as H.
  unfold DT.time_ok, DT.time_of. cbn [DT.hour DT.minute DT.second DT.microsecond].
  revert H. generalize (DT.tod_of d). intros r H.
  unfold DT.us_per_day, DT.us_per_hour, DT.us_per_minute, DT.us_per_second in *.
  Z.div_mod_to_equations. lia.
Qed.

Lemma time_us_of d : DT.time_us (DT.time_of d) = DT.tod_of d.
Proof.
  unfold DT.time_us, DT.time_of. cbn [DT.hour DT.minute DT.second DT.microsecond].
  generalize (DT.tod_of d). intros r.
  unfold DT.us_per_hour, DT.us_per_minute, DT.us_per_second in *.
  Z.div_mod_to_equations. lia.
Qed.

(** On well-formed times the order of the tuples is the order of the
    microsecond counts. *)
Lemma time_gt_us a b :
  DT.time_ok a -> DT.time_ok b ->
  DT.time_gt a b = (DT.time_us b <? DT.time_us a).
Proof.
  unfold DT.time_ok, DT.time_gt, DT.time_us, DT.us_per_hour,
    DT.us_per_minute, DT.us_per_second.
  intros Ha Hb.
  destruct (Z.compare_spec (DT.hour a) (DT.hour b));
    destruct (Z.compare_spec (DT.minute a) (DT.minute b));
    destruct (Z.compare_spec (DT.second a) (DT.second b));
    destruct (Z.ltb_spec (DT.microsecond b) (DT.microsecond a));
    symmetry; first [apply Z.ltb_lt; lia | apply Z.ltb_ge; lia].
Qed.

Lemma time_gt_now a d :
  DT.time_ok a ->
  DT.time_gt a (DT.time_of d) = (DT.tod_of d <? DT.time_us a).
Proof.
  intros Ha. rewrite time_gt_us by auto using time_of_ok.
  rewrite time_us_of. reflexivity.
Qed.

Lemma day_of_add d n : DT.day_of (d + n * DT.us_per_day) = DT.day_of d + n.
Proof. unfold DT.day_of. apply Z.div_add. easy. Qed.

Lemma whole_second_ok t : DT.time_ok t -> DT.time_ok (DT.whole_second t).
Proof. unfold DT.time_ok, DT.whole_second. cbn. lia. Qed.

Lemma replace_time_eq d t :
  DT.replace_time d t
  = DT.day_of d * DT.us_per_day + DT.time_us (DT.whole_second t).
Proof. reflexivity. Qed.

Lemma replace_time_day d t :
  DT.time_ok t -> DT.day_of (DT.replace_time d t) = DT.day_of d.
Proof.
  intros Ht. pose proof (time_us_range _ (whole_second_ok t Ht)).
  rewrite replace_time_eq. unfold DT.day_of at 1.
  rewrite Z.add_comm, Z.div_add by easy.
  rewrite Z.div_small by assumption. reflexivity.
Qed.

End DTFacts.

(** ** The due-time algorithm in closed form *)

Lemma timedelta_of_value u i p : timedelta_of u i = Ok p -> p = i * unit_us u.
Proof.
  unfold timedelta_of, DT.mk_timedelta.
  destruct (_ && _); congruence.
Qed.

Lemma add_value d p n : DT.add d p = Ok n -> n = d + p /\ DT.valid (d + p) = true.
Proof.
  unfold DT.add. destruct (DT.valid (d + p)); intros H; inversion H; auto.
Qed.

Lemma unit_name_eqb_eq u v : unit_name_eqb u v = true -> u = v.
Proof. destruct u, v; simpl; congruence. Qed.

(** Whenever the algorithm completes, it has produced [scheduled]. *)
Lemma schedule_inv clock r w w' :
  _schedule_next_run clock r w = (Ok tt, w') ->
  exists u, unit (heap w r) = Some u /\
            (at_time (heap w r) <> None -> u = Days) /\
            w' = scheduled clock r u w.
Proof.
  unfold _schedule_next_run, scheduled, due_time, readings. unfold_m.
  destruct (unit (heap w r)) as [u|]; [|discriminate].
  destruct (timedelta_of u (interval (heap w r))) as [p|] eqn:Hp; [|discriminate].
  apply timedelta_of_value in Hp. subst p. cbn.
  destruct (DT.add _ _) as [n|] eqn:Hn; [|discriminate].
  apply add_value in Hn. destruct Hn as [-> _]. cbn.
  simpl_heap.
  destruct (at_time (heap w r)) as [a|]; cbn.
  - destruct (unit_name_eqb u Days) eqn:Hu; [|discriminate].
    apply unit_name_eqb_eq in Hu. subst u. cbn.
    destruct (last_run (heap w r)); cbn.
    + intros H. inversion H. exists Days. simpl_heap. auto.
    + destruct (DT.time_gt a _); cbn.
      * destruct (DT.sub _ _) as [m|] eqn:Hm; [|discriminate].
        apply add_value in Hm. destruct Hm as [-> _]. cbn.
        intros H. inversion H. exists Days. simpl_heap.
        repeat split; auto.
      * intros H. inversion H. exists Days. simpl_heap. auto.
  - intros H. inversion H. exists u. split; [reflexivity|].
    split; [congruence|reflexivity].
Qed.

(** The algorithm completes when the unit is set, the anchor goes with
    days only, and the instants it computes are dates of the calendar. *)
Lemma schedule_completes clock r w u :
  let j := heap w r in
  let t1 := clock (ticks w) in
  let t2 := clock (S (ticks w)) in
  unit j = Some u ->
  (at_time j <> None -> u = Days) ->
  timedelta_of u (interval j) = Ok (interval j * unit_us u) ->
  DT.valid (t1 + interval j * unit_us u) = true ->
  DT.valid (due_time j u t1 t2) = true ->
  _schedule_next_run clock r w = (Ok tt, scheduled clock r u w).
Proof.
  intros j t1 t2 Hu Hat Htd Hv1 Hv2. subst j t1 t2.
  unfold _schedule_next_run, scheduled, readings. unfold_m.
  rewrite Hu, Htd. cbn. unfold DT.add at 1. rewrite Hv1. cbn.
  simpl_heap. unfold due_time in *.
  destruct (at_time (heap w r)) as [a|]; cbn.
  - assert (u = Days) by (apply Hat; discriminate). subst u. cbn.
    destruct (last_run (heap w r)); cbn.
    + simpl_heap. reflexivity.
    + destruct (DT.time_gt a _); cbn.
      * unfold DT.sub, DT.add.
        match goal with
        | |- context [if DT.valid ?x then _ else _] =>
          replace (DT.valid x) with true by (symmetry; exact Hv2)
        end.
        cbn. simpl_heap. reflexivity.
      * simpl_heap. reflexivity.
  - reflexivity.
Qed.

Lemma unit_us_pos u : 0 < unit_us u.
Proof. destruct u; reflexivity. Qed.

Lemma replace_after_days t1 i a :
  DT.replace_time (t1 + i * DT.us_per_day) a
  = (DT.day_of t1 + i) * DT.us_per_day + DT.time_us (DT.whole_second a).
Proof.
  rewrite DTFacts.replace_time_eq, DTFacts.day_of_add. reflexivity.
Qed.

Lemma next_run_scheduled clock r u w :
  next_run (heap (scheduled clock r u w) r)
  = Some (due_time (heap w r) u (clock (ticks w)) (clock (S (ticks w)))).
Proof. unfold scheduled. cbn. rewrite update_same. reflexivity. Qed.

(** ** The schedule lies in the future (claim C5) *)

(** C5.  For a job with a positive interval, whenever the due-time
    algorithm completes, the [next_run] it leaves is strictly later
    than the clock reading it was computed from, unless the same-day
    correction was applied: the job is anchored, has not run yet, and
    the anchor is later than the time of day then read. *)
Theorem next_run_strictly_later clock r w w'
  (Hi : 0 < interval (heap w r))
  (Hat : forall a, at_time (heap w r) = Some a -> DT.time_ok a)
  (Hdone : _schedule_next_run clock r w = (Ok tt, w')) :
  exists u n,
    unit (heap w r) = Some u /\ next_run (heap w' r) = Some n /\
    (clock (ticks w) < n \/
     exists a, at_time (heap w r) = Some a /\ last_run (heap w r) = None /\
               DT.time_gt a (DT.time_of (clock (S (ticks w)))) = true).
Proof.
  apply schedule_inv in Hdone. destruct Hdone as (u & Hu & Hd & ->).
  exists u. eexists. split; [exact Hu|]. split; [apply next_run_scheduled|].
  unfold due_time.
  destruct (at_time (heap w r)) as [a|] eqn:Ha.
  - assert (u = Days) by (apply Hd; discriminate). subst u.
    pose proof (DTFacts.time_us_range _
                  (DTFacts.whole_second_ok a (Hat a eq_refl))) as Hr.
    pose proof (DTFacts.day_tod (clock (ticks w))) as Hc.
    pose proof (DTFacts.tod_range (clock (ticks w))) as Ht.
    assert (Hlater : clock (ticks w)
                     < DT.replace_time
                         (clock (ticks w) + interval (heap w r) * unit_us Days) a).
    { change (unit_us Days) with DT.us_per_day. rewrite replace_after_days.
      change DT.us_per_day with 86400000000 in *. lia. }
    destruct (last_run (heap w r)); [left; exact Hlater|].
    destruct (DT.time_gt a _) eqn:Hg.
    + right. exists a. auto.
    + left. exact Hlater.
  - left. pose proof (unit_us_pos u). nia.
Qed.

Lemma next_run_strictly_later_witness :
  let clock := ticking (instant 738000 9 0 0) in
  let w := snd ((r <- Scheduler.every 3 ;; minutes r) empty_world) in
  exists u n,
    unit (heap w O) = Some u /\
    next_run (heap (scheduled clock O Minutes w) O) = Some n /\
    (clock (ticks w) < n \/
     exists a, at_time (heap w O) = Some a /\ last_run (heap w O) = None /\
               DT.time_gt a (DT.time_of (clock (S (ticks w)))) = true).
Proof.
  apply (next_run_strictly_later (ticking (instant 738000 9 0 0)) O
           (snd ((r <- Scheduler.every 3 ;; minutes r) empty_world))).
  - reflexivity.
  - intros a H. discriminate H.
  - apply schedule_completes; try reflexivity. intros H. now elim H.
Defined.

(** ** Parsing the anchor and [Job.at] (claim C6) *)

(** The limit on the digits of a number: zeros count, white space
    does not. *)
Example int_of_str_limit :
  int_of_str (copies 4300 "0") = Ok 0 /\
  int_of_str (copies 4301 "0") = Raise ValueError /\
  int_of_str (copies 5000 " " ++ String "1" (copies 4299 "0")) <> Raise ValueError /\
  int_of_str (String "-" (copies 4301 "1")) = Raise ValueError.
Proof. repeat split; vm_compute; solve [reflexivity | discriminate]. Qed.

Lemma split_colon_cons s : exists f fs, split_colon s = f :: fs.
Proof.
  induction s as [|c s IH]; cbn.
  - eauto.
  - destruct (Ascii.eqb c colon); [eauto|].
    destruct IH as (f & fs & ->). eauto.
Qed.

Lemma split_colon_app x y :
  split_colon (x ++ String colon y) = split_colon x ++ split_colon y.
Proof.
  induction x as [|c x IH]; cbn.
  - reflexivity.
  - destruct (Ascii.eqb c colon).
    + rewrite IH. reflexivity.
    + rewrite IH. destruct (split_colon_cons x) as (f & fs & ->). reflexivity.
Qed.

Lemma int_of_str_raises s e : int_of_str s = Raise e -> e = ValueError.
Proof.
  unfold int_of_str.
  repeat (step; try congruence).
Qed.

Lemma ints_of_raises l e : ints_of l = Raise e -> e = ValueError.
Proof.
  induction l as [|f l IH]; cbn; [discriminate|].
  destruct (int_of_str f) eqn:Hf.
  - destruct (ints_of l); [discriminate|].
    intros H. inversion H. subst. auto.
  - intros H. inversion H. subst. eauto using int_of_str_raises.
Qed.

Lemma ints_of_length l ns : ints_of l = Ok ns -> List.length ns = List.length l.
Proof.
  revert ns. induction l as [|f l IH]; cbn; intros ns H.
  - inversion H. reflexivity.
  - destruct (int_of_str f); [|discriminate].
    destruct (ints_of l); [|discriminate].
    inversion H. cbn. f_equal. auto.
Qed.

Lemma parse_fields_raises s e : parse_fields s = Raise e -> e = ValueError.
Proof.
  unfold parse_fields. destruct (ints_of _) as [ns|e'] eqn:H.
  - unfold unpack2. destruct ns as [|a [|b [|c ns]]]; congruence.
  - intros E. inversion E. subst. eauto using ints_of_raises.
Qed.

(** A string is read as an hour and a minute exactly when it has two
    fields around one colon, each of them an integer for [int]. *)
Lemma parse_fields_ok s h m :
  parse_fields s = Ok (h, m) <->
  exists a b, split_colon s = [a; b] /\
              int_of_str a = Ok h /\ int_of_str b = Ok m.
Proof.
  unfold parse_fields. split.
  - destruct (ints_of (split_colon s)) as [ns|] eqn:H; [|discriminate].
    pose proof (ints_of_length _ _ H) as L.
    destruct ns as [|x [|y [|z ns]]]; cbn; try discriminate.
    intros E. inversion E. subst.
    destruct (split_colon s) as [|a [|b [|c l]]]; try discriminate.
    cbn in H. exists a, b.
    destruct (int_of_str a); [|discriminate].
    destruct (int_of_str b); [|discriminate].
    inversion H. auto.
  - intros (a & b & -> & Ha & Hb). cbn. rewrite Ha, Hb. reflexivity.
Qed.

(** A string with a seconds component, or more, is not read. *)
Lemma parse_fields_three x y z :
  parse_fields (x ++ String colon (y ++ String colon z)) = Raise ValueError.
Proof.
  destruct (parse_fields _) as [[h m]|e] eqn:H.
  - apply parse_fields_ok in H. destruct H as (a & b & H & _).
    rewrite !split_colon_app in H.
    destruct (split_colon_cons x) as (f1 & l1 & E1).
    destruct (split_colon_cons y) as (f2 & l2 & E2).
    destruct (split_colon_cons z) as (f3 & l3 & E3).
    rewrite E1, E2, E3 in H. apply (f_equal (@List.length _)) in H.
    repeat (rewrite ?length_app in H; cbn [List.length app] in H). lia.
  - f_equal. eauto using parse_fields_raises.
Qed.

(** [Job.at] in one expression. *)
Lemma at_unfold r s w :
  at_ r s w =
  if is_days (unit (heap w r)) then
    match parse_fields s with
    | Raise e => (Raise e, w)
    | Ok hm =>
      if (0 <=? fst hm) && (fst hm <=? 23) then
        if (0 <=? snd hm) && (snd hm <=? 59) then
          (Ok r,
           mkWorld (update (heap w) r
                      (set_at_time (Some (DT.mktime (fst hm) (snd hm) 0 0))
                                   (heap w r)))
                   (fresh w) (jobs w) (ticks w) (trace w))
        else (Raise AssertionError, w)
      else (Raise AssertionError, w)
    end
  else (Raise AssertionError, w).
Proof.
  unfold at_. unfold_m.
  destruct (is_days _); cbn; [|reflexivity].
  destruct (parse_fields s) as [hm|]; cbn; [|reflexivity].
  destruct (_ && _); cbn; [|reflexivity].
  destruct (_ && _); reflexivity.
Qed.

Lemma is_days_true u : is_days u = true <-> u = Some Days.
Proof. destruct u as [[]|]; cbn; split; congruence. Qed.

Lemma in_range_true lo hi x :
  (lo <=? x) && (x <=? hi) = true <-> lo <= x <= hi.
Proof. rewrite andb_true_iff, !Z.leb_le. tauto. Qed.

(** *** The parser against the integer literals *)

(** The character classes of the parser are those of the tables. *)
Lemma digit_val_of c : digit_val c = digit_of c.
Proof. destruct c as [[] [] [] [] [] [] [] []]; reflexivity. Qed.

Lemma is_space_white c : is_space c = is_white c.
Proof. destruct c as [[] [] [] [] [] [] [] []]; reflexivity. Qed.

Lemma digit_count_in s : digit_count s = digits_in s.
Proof.
  induction s as [|c s IH]; cbn; [reflexivity|].
  rewrite digit_val_of, IH. reflexivity.
Qed.

Lemma digit_not_space c d : digit_of c = Some d -> is_white c = false.
Proof.
  destruct c as [[] [] [] [] [] [] [] []]; intros H;
    first [reflexivity | discriminate H].
Qed.

Lemma digit_not_sign c d :
  digit_of c = Some d -> c <> "+"%char /\ c <> "-"%char.
Proof. intros H. split; intros ->; discriminate H. Qed.

(** The parser of the digits against the grammar. *)
Lemma int_digits_tail s : forall acc v,
  (int_digits acc false s = Some v <-> digit_tail acc s v) /\
  (int_digits acc true s = Some v <->
   exists c d s', s = String c s' /\ digit_of c = Some d /\
                  digit_tail (10 * acc + d) s' v).
Proof.
  induction s as [|c s IH]; intros acc v; cbn [int_digits];
    rewrite ?digit_val_of.
  - split; split.
    + intros H. inversion H. constructor.
    + intros H. inversion H. reflexivity.
    + discriminate.
    + intros (c & d & s' & H & _). discriminate H.
  - destruct (digit_of c) as [d|] eqn:Hd.
    + split; split.
      * intros H. apply IH in H. econstructor; eassumption.
      * intros H. inversion H; subst.
        -- apply IH. replace d with d0 by congruence. assumption.
        -- discriminate Hd.
      * intros H. apply IH in H. exists c, d, s. auto.
      * intros (c' & d' & s' & E & Hd' & Ht). inversion E; subst.
        apply IH. replace d with d' by congruence. assumption.
    + split; split.
      * rewrite andb_true_r.
        destruct (Ascii.eqb_spec c "_"%char) as [->|Hc]; [|discriminate].
        intros H. apply IH in H. destruct H as (c' & d' & s' & -> & Hd' & Ht).
        eapply tail_underscore; eassumption.
      * intros H. inversion H; subst.
        -- congruence.
        -- cbn. apply IH. do 3 eexists. repeat split; eassumption.
      * rewrite andb_false_r. discriminate.
      * intros (c' & d' & s' & E & Hd' & Ht). inversion E; subst. congruence.
Qed.

Lemma lstrip_blank pre t : blank pre = true -> lstrip (pre ++ t) = lstrip t.
Proof.
  induction pre as [|c pre IH]; cbn; [reflexivity|].
  rewrite is_space_white.
  intros H. apply andb_true_iff in H. destruct H as [-> H]. auto.
Qed.

Lemma lstrip_split s : exists pre, s = (pre ++ lstrip s)%string /\ blank pre = true.
Proof.
  induction s as [|c s (pre & E & H)]; cbn.
  - exists EmptyString. auto.
  - rewrite is_space_white. destruct (is_white c) eqn:Hc.
    + exists (String c pre). cbn. rewrite Hc, H, <- E. auto.
    + exists EmptyString. auto.
Qed.

Lemma rstrip_blank post : blank post = true -> rstrip post = EmptyString.
Proof.
  induction post as [|c post IH]; cbn; [reflexivity|].
  rewrite is_space_white.
  intros H. apply andb_true_iff in H. destruct H as [-> H].
  rewrite IH by exact H. reflexivity.
Qed.

Lemma rstrip_split s : exists post, s = (rstrip s ++ post)%string /\ blank post = true.
Proof.
  induction s as [|c s (post & E & H)]; cbn.
  - exists EmptyString. auto.
  - destruct (rstrip s) as [|c' r] eqn:Hr.
    + rewrite is_space_white. destruct (is_white c) eqn:Hc.
      * exists (String c s). cbn. rewrite Hc. split; [reflexivity|].
        cbn in E. subst s. exact H.
      * exists post. cbn in E. subst s. auto.
    + exists post. cbn [append] in *. rewrite <- E. auto.
Qed.

Lemma rstrip_keep t post :
  solid_end t = true -> blank post = true -> rstrip (t ++ post) = t.
Proof.
  intros Ht Hp. induction t as [|c t IH]; [discriminate Ht|].
  cbn [append rstrip]. destruct t as [|c' t].
  - cbn [append]. rewrite rstrip_blank by exact Hp.
    cbn in Ht. rewrite is_space_white.
    destruct (is_white c); [discriminate Ht|reflexivity].
  - rewrite IH by exact Ht. reflexivity.
Qed.

Lemma tail_solid_end acc s v c d :
  digit_of c = Some d -> digit_tail acc s v -> solid_end (String c s) = true.
Proof.
  intros Hc H. revert c d Hc. induction H; intros c0 d0 Hc0.
  - cbn. rewrite (digit_not_space _ _ Hc0). reflexivity.
  - change (solid_end (String c s) = true). eauto.
  - change (solid_end (String c s) = true). eauto.
Qed.

Lemma decinteger_solid_end s v : decinteger s v -> solid_end s = true.
Proof. intros [c d t w Hc Ht]. eapply tail_solid_end; eassumption. Qed.

Lemma signed_solid_end s v : signed_integer s v -> solid_end s = true.
Proof.
  intros [t w H|t w H|t w H]; pose proof (decinteger_solid_end _ _ H) as E;
    [exact E| |]; destruct t; [discriminate E|exact E|discriminate E|exact E].
Qed.

Lemma int_unsigned_decinteger s v :
  int_unsigned s = Some v <->
  decinteger s v /\ digits_in s <= 4300.
Proof.
  unfold int_unsigned. destruct s as [|c s].
  - split; [discriminate|]. intros [H _]. inversion H.
  - rewrite digit_val_of, digit_count_in. unfold int_max_str_digits.
    destruct (digit_of c) as [d|] eqn:Hd.
    + destruct (Z.ltb_spec 4300 (digits_in (String c s))) as [Hl|Hl].
      * split; [discriminate|]. intros [_ H]. lia.
      * rewrite (proj1 (int_digits_tail s d v)). split.
        -- intros H. split; [|exact Hl]. econstructor; eassumption.
        -- intros [H _]. inversion H; subst.
           replace d with d0 by congruence. assumption.
    + split; [discriminate|]. intros [H _]. inversion H; subst. congruence.
Qed.

Lemma int_of_str_eq s :
  int_of_str s =
  match
    match rstrip (lstrip s) with
    | EmptyString => None
    | String c s' =>
      if Ascii.eqb c "+" then int_unsigned s'
      else if Ascii.eqb c "-" then option_map Z.opp (int_unsigned s')
      else int_unsigned (String c s')
    end
  with
  | Some n => Ok n
  | None => Raise ValueError
  end.
Proof.
  unfold int_of_str. destruct (rstrip (lstrip s)) as [|c s']; [reflexivity|].
  destruct c as [[] [] [] [] [] [] [] []]; reflexivity.
Qed.

Lemma signed_head s n :
  signed_integer s n -> exists c t, s = String c t /\ is_space c = false.
Proof.
  intros [t w H|t w H|t w H].
  - destruct H as [c d t' w Hc _]. exists c, t'.
    split; [reflexivity|]. rewrite is_space_white.
    eapply digit_not_space; eassumption.
  - eexists _, _. split; reflexivity.
  - eexists _, _. split; reflexivity.
Qed.

(** [int] reads exactly the integer literals, as the numbers they
    denote. *)
Lemma int_of_str_literal s n : int_of_str s = Ok n <-> int_literal s n.
Proof.
  rewrite int_of_str_eq. split.
  - intros H.
    destruct (lstrip_split s) as (pre & Es & Hpre).
    destruct (rstrip_split (lstrip s)) as (post & El & Hpost).
    destruct (rstrip (lstrip s)) as [|c body] eqn:Hb; [discriminate H|].
    exists pre, (String c body), post.
    split; [rewrite <- El; exact Es|]. split; [exact Hpre|]. split; [exact Hpost|].
    destruct (Ascii.eqb_spec c "+"%char) as [->|Hplus].
    + destruct (int_unsigned body) as [v|] eqn:Hv; [|discriminate H].
      inversion H; subst. apply int_unsigned_decinteger in Hv.
      destruct Hv as [Hd Hc]. split; [constructor; exact Hd|exact Hc].
    + destruct (Ascii.eqb_spec c "-"%char) as [->|Hminus].
      * destruct (int_unsigned body) as [v|] eqn:Hv; [|discriminate H].
        inversion H; subst. apply int_unsigned_decinteger in Hv.
        destruct Hv as [Hd Hc]. split; [constructor; exact Hd|exact Hc].
      * destruct (int_unsigned (String c body)) as [v|] eqn:Hv; [|discriminate H].
        inversion H; subst. apply int_unsigned_decinteger in Hv.
        destruct Hv as [Hd Hc]. split; [constructor; exact Hd|exact Hc].
  - intros (pre & body & post & -> & Hpre & Hpost & Hs & Hc).
    rewrite lstrip_blank by exact Hpre.
    destruct (signed_head _ _ Hs) as (c & t & -> & Hsp).
    cbn [append lstrip]. rewrite Hsp.
    change (String c (t ++ post)) with (String c t ++ post)%string.
    rewrite rstrip_keep by eauto using signed_solid_end.
    inversion Hs as [t' w H|t' w H|t' w H]; subst.
    + assert (Hdig : exists d, digit_of c = Some d)
        by (inversion H; subst; eauto).
      destruct Hdig as (d & Hdig).
      destruct (digit_not_sign _ _ Hdig) as [Hp Hm].
      destruct (Ascii.eqb_spec c "+"%char); [contradiction|].
      destruct (Ascii.eqb_spec c "-"%char); [contradiction|].
      rewrite (proj2 (int_unsigned_decinteger _ _) (conj H Hc)). reflexivity.
    + cbn. rewrite (proj2 (int_unsigned_decinteger _ _) (conj H Hc)). reflexivity.
    + cbn. rewrite (proj2 (int_unsigned_decinteger _ _) (conj H Hc)). reflexivity.
Qed.

(** A text without a colon is one field, and one field is a text
    without a colon. *)
Lemma split_colon_one s b :
  split_colon s = [b] <-> s = b /\ no_colon b = true.
Proof.
  revert b. induction s as [|c s IH]; intros b; cbn [split_colon].
  - split.
    + intros H. inversion H. auto.
    + intros [<- _]. reflexivity.
  - destruct (Ascii.eqb c colon) eqn:Hc; unfold colon in Hc.
    + split.
      * intros H. inversion H.
        destruct (split_colon_cons s) as (f & fs & E). congruence.
      * intros [<- H]. cbn in H. rewrite Hc in H. discriminate H.
    + destruct (split_colon s) as [|f fs] eqn:Hs.
      * destruct (split_colon_cons s) as (f & fs & E). congruence.
      * split.
        -- intros H. inversion H; subst.
           destruct (proj1 (IH f) eq_refl) as [-> Hn].
           cbn. rewrite Hc, Hn. auto.
        -- intros [<- H]. cbn in H. rewrite Hc in H. cbn in H.
           pose proof (proj2 (IH s) (conj eq_refl H)) as E.
           inversion E. reflexivity.
Qed.

Lemma split_colon_two s a b :
  split_colon s = [a; b] <->
  s = (a ++ String ":" b)%string /\ no_colon a = true /\ no_colon b = true.
Proof.
  split.
  - revert a. induction s as [|c s IH]; intros a; cbn [split_colon].
    + discriminate.
    + destruct (Ascii.eqb_spec c colon) as [->|Hc].
      * intros H. inversion H; subst.
        apply split_colon_one in H2. destruct H2 as [-> Hb]. auto.
      * destruct (split_colon s) as [|f fs] eqn:Hs; [discriminate|].
        intros H. inversion H; subst.
        destruct (IH f eq_refl) as (-> & Ha & Hb).
        cbn. fold colon. destruct (Ascii.eqb_spec c colon); [contradiction|].
        auto.
  - intros (-> & Ha & Hb). fold colon. rewrite split_colon_app.
    rewrite (proj2 (split_colon_one a a)), (proj2 (split_colon_one b b)) by auto.
    reflexivity.
Qed.

Lemma parse_fields_text s h m :
  parse_fields s = Ok (h, m) <-> time_text s h m.
Proof.
  rewrite parse_fields_ok. unfold time_text. split.
  - intros (a & b & Hs & Ha & Hb). exists a, b.
    apply split_colon_two in Hs. destruct Hs as (-> & Na & Nb).
    rewrite <- !int_of_str_literal. auto.
  - intros (a & b & -> & Na & Nb & Ha & Hb). exists a, b.
    rewrite !int_of_str_literal.
    split; [apply split_colon_two|]; auto.
Qed.

(** A field of the specification is an integer literal of the number
    it shows, and holds no colon. *)
Lemma spec_field_literal a h :
  spec_field a = Some h -> int_literal a h /\ no_colon a = true.
Proof.
  assert (Hc : forall c d, digit_of c = Some d -> Ascii.eqb c ":" = false).
  { intros c d H. destruct (Ascii.eqb_spec c ":"%char) as [->|];
      [discriminate H|reflexivity]. }
  destruct a as [|c1 [|c2 [|c3 a]]]; cbn [spec_field]; try discriminate.
  - intros H. split.
    + exists EmptyString, (String c1 EmptyString), EmptyString.
      repeat split.
      * constructor. econstructor; [exact H|constructor].
      * cbn. rewrite H. lia.
    + cbn. rewrite (Hc _ _ H). reflexivity.
  - destruct (digit_of c1) as [x|] eqn:H1; [|discriminate].
    destruct (digit_of c2) as [y|] eqn:H2; [|discriminate].
    intros H. inversion H; subst. split.
    + exists EmptyString, (String c1 (String c2 EmptyString)), EmptyString.
      repeat split.
      * constructor. econstructor; [exact H1|].
        econstructor; [exact H2|constructor].
      * cbn. rewrite H1, H2. lia.
    + cbn. rewrite (Hc _ _ H1), (Hc _ _ H2). reflexivity.
Qed.

Lemma spec_hh_mm_text s h m : spec_hh_mm s h m -> time_text s h m.
Proof.
  intros (a & b & -> & Ha & Hb).
  apply spec_field_literal in Ha, Hb.
  exists a, b. tauto.
Qed.

(** C6.  [at(time_string)] fails exactly when the unit is not days,
    or the string is not read as an hour and a minute, or the hour is
    outside 0..23 or the minute outside 0..59.  The strings that are
    read are those of two integer literals around the only colon,
    which denote one hour and one minute: every [HH:MM] of the
    specification, zero-padded or not, is one of them, and is read as
    the hour and minute it shows; a string with a seconds component is
    none.  A wrong unit and an hour or minute out of range are
    assertion errors, a string that is not read is a value error, and
    a failure changes nothing; a success stores the time of day,
    with zero seconds, in [at_time] and returns the job it was called
    on. *)
Theorem at_fails_exactly r s w :
  let j := heap w r in
  let res := at_ r s w in
  ((exists e, fst res = Raise e) <->
     unit j <> Some Days \/
     (forall h m, ~ time_text s h m) \/
     exists h m, time_text s h m /\
                 ~ (0 <= h <= 23 /\ 0 <= m <= 59))
  /\ (forall h m, spec_hh_mm s h m -> time_text s h m)
  /\ (forall h m h' m',
        time_text s h m -> time_text s h' m' -> h = h' /\ m = m')
  /\ (forall x y z,
        s = (x ++ String ":" (y ++ String ":" z))%string ->
        forall h m, ~ time_text s h m)
  /\ (forall e, fst res = Raise e -> snd res = w)
  /\ (unit j <> Some Days -> fst res = Raise AssertionError)
  /\ (unit j = Some Days -> (forall h m, ~ time_text s h m) ->
      fst res = Raise ValueError)
  /\ (forall h m,
        unit j = Some Days -> time_text s h m ->
        ~ (0 <= h <= 23 /\ 0 <= m <= 59) ->
        fst res = Raise AssertionError)
  /\ (forall r',
        fst res = Ok r' ->
        r' = r /\
        exists h m,
          time_text s h m /\
          snd res =
          mkWorld (update (heap w) r
                     (set_at_time (Some (DT.mktime h m 0 0)) j))
                  (fresh w) (jobs w) (ticks w) (trace w)).
Proof.
  intros j res. subst j res. rewrite at_unfold.
  split; [|split; [|split; [|split; [|split; [|split; [|split; [|split]]]]]]].
  - destruct (is_days _) eqn:Hd.
    + apply is_days_true in Hd.
      destruct (parse_fields s) as [[h m]|e] eqn:Hp; cbn [fst snd].
      * pose proof (proj1 (parse_fields_text s h m) Hp) as Ht.
        destruct ((0 <=? h) && (h <=? 23)) eqn:Hh;
          [destruct ((0 <=? m) && (m <=? 59)) eqn:Hm|]; cbn [fst].
        -- apply in_range_true in Hh, Hm. split.
           ++ intros (e & He). discriminate.
           ++ intros [H|[H|(h' & m' & H & Hr)]]; try congruence.
              ** elim (H h m). exact Ht.
              ** apply parse_fields_text in H.
                 rewrite Hp in H. inversion H. subst. tauto.
        -- split; [|intros _; cbn; eauto]. intros _. right. right. exists h, m.
           split; [exact Ht|]. rewrite <- (in_range_true 0 59 m). intuition congruence.
        -- split; [|intros _; cbn; eauto]. intros _. right. right. exists h, m.
           split; [exact Ht|]. rewrite <- (in_range_true 0 23 h). intuition congruence.
      * split; [|intros _; cbn; eauto]. intros _. right. left.
        intros h m Ht. apply parse_fields_text in Ht. congruence.
    + split; [|intros _; cbn; eauto]. intros _. left. intros H.
      apply is_days_true in H. congruence.
  - intros h m. apply spec_hh_mm_text.
  - intros h m h' m' H H'. apply parse_fields_text in H, H'.
    rewrite H in H'. inversion H'. auto.
  - intros x y z -> h m Ht. apply parse_fields_text in Ht.
    pose proof (parse_fields_three x y z) as P. unfold colon in P.
    rewrite P in Ht. discriminate Ht.
  - intros e. repeat (step; cbn [fst snd]); congruence.
  - intros Hu. destruct (is_days _) eqn:Hd; [|reflexivity].
    apply is_days_true in Hd. contradiction.
  - intros Hu Hno. rewrite (proj2 (is_days_true _) Hu).
    destruct (parse_fields s) as [[h m]|e] eqn:Hp; cbn [fst].
    + elim (Hno h m). apply parse_fields_text. exact Hp.
    + f_equal. eauto using parse_fields_raises.
  - intros h m Hu Ht Hr. rewrite (proj2 (is_days_true _) Hu).
    apply parse_fields_text in Ht. rewrite Ht. cbn [fst snd].
    destruct ((0 <=? h) && (h <=? 23)) eqn:Hh; [|reflexivity].
    destruct ((0 <=? m) && (m <=? 59)) eqn:Hm; [|reflexivity].
    apply in_range_true in Hh, Hm. tauto.
  - intros r'. destruct (is_days _); [|discriminate].
    destruct (parse_fields s) as [[h m]|] eqn:Hp; [|discriminate]. cbn [fst snd].
    destruct (_ && _); [|discriminate].
    destruct (_ && _); [|discriminate]. cbn.
    intros H. inversion H. split; [reflexivity|]. exists h, m.
    split; [apply parse_fields_text; exact Hp|reflexivity].
Qed.

(** A string that is not an [HH:MM] of the specification, and that
    [at] accepts all the same: [int] reads the white space, the sign
    and the underscore of its fields. *)
Lemma at_accepts_text_outside_hh_mm :
  let w := snd ((r <- Scheduler.every 1 ;; days r) empty_world) in
  let res := at_ O " +7 : 0_5" w in
  (forall h m, ~ spec_hh_mm " +7 : 0_5" h m) /\
  fst res = Ok O /\
  at_time (heap (snd res) O) = Some (DT.mktime 7 5 0 0).
Proof.
  split; [|split; reflexivity].
  intros h m (a & b & E & Ha & _).
  destruct a as [|c1 [|c2 [|c3 a]]]; cbn in Ha; try discriminate Ha;
    cbn in E; inversion E; subst; cbn in Ha; discriminate Ha.
Qed.

Example at_accepts_and_rejects :
  let w := snd ((r <- Scheduler.every 1 ;; days r) empty_world) in
  let v := snd ((r <- Scheduler.every 1 ;; hours r) empty_world) in
  fst (at_ O "10:30" w) = Ok O /\
  at_time (heap (snd (at_ O "10:30" w)) O) = Some (DT.mktime 10 30 0 0) /\
  fst (at_ O "7:5" w) = Ok O /\
  fst (at_ O "25:00" w) = Raise AssertionError /\
  fst (at_ O "10:60" w) = Raise AssertionError /\
  fst (at_ O "abc" w) = Raise ValueError /\
  fst (at_ O "10:30:00" w) = Raise ValueError /\
  fst (at_ O "10:30" v) = Raise AssertionError /\
  fst (at_ O " +7 : 0_5" w) = Ok O /\
  fst (at_ O "007:0_5" w) = Ok O /\
  fst (at_ O "-0:00" w) = Ok O /\
  fst (at_ O "7 :5" w) = Ok O /\
  fst (at_ O "7: 5" w) = Ok O /\
  fst (at_ O "+ 7:5" w) = Raise ValueError /\
  fst (at_ O "7_:5" w) = Raise ValueError /\
  fst (at_ O "7:5:" w) = Raise ValueError /\
  fst (at_ O ":5" w) = Raise ValueError /\
  fst (at_ O "-1:5" w) = Raise AssertionError.
Proof. repeat split; reflexivity. Qed.

(** ** The first schedule of an anchored job (claim C2) *)

Lemma valid_iff d :
  DT.valid d = true <-> 0 <= DT.day_of d < DT.max_ordinal.
Proof.
  unfold DT.valid, DT.day_of. rewrite andb_true_iff, Z.leb_le, Z.ltb_lt.
  change DT.us_per_day with 86400000000. unfold DT.max_ordinal.
  Z.div_mod_to_equations. lia.
Qed.

Lemma valid_replace d t :
  DT.time_ok t -> DT.valid d = true -> DT.valid (DT.replace_time d t) = true.
Proof.
  intros Ht. rewrite !valid_iff, DTFacts.replace_time_day by assumption. auto.
Qed.

Lemma anchored_valid t a :
  DT.time_ok a ->
  DT.valid t = true -> DT.valid (t + DT.us_per_day) = true ->
  DT.valid (DT.replace_time (t + DT.us_per_day) a) = true /\
  DT.valid (DT.replace_time (t + DT.us_per_day) a - DT.us_per_day) = true.
Proof.
  intros Ha.
  pose proof (DTFacts.time_us_range _ (DTFacts.whole_second_ok a Ha)) as Hr.
  revert Hr. rewrite !DTFacts.replace_time_eq. unfold DT.valid, DT.day_of.
  rewrite !andb_true_iff, !Z.leb_le, !Z.ltb_lt.
  generalize (DT.time_us (DT.whole_second a)). intros x.
  unfold DT.max_ordinal. change DT.us_per_day with 86400000000.
  Z.div_mod_to_equations. lia.
Qed.

Lemma do_unfold clock r f w :
  do_ clock r f w =
  match _schedule_next_run clock r
          (mkWorld (update (heap w) r (set_job_func (Some f) (heap w r)))
                   (fresh w) (jobs w) (ticks w) (trace w)) with
  | (Ok _, w') => (Ok r, w')
  | (Raise e, w') => (Raise e, w')
  end.
Proof. unfold do_. unfold_m. destruct (_schedule_next_run _ _ _) as [[]]; reflexivity. Qed.

(** C2.  For a job configured by [every(1).days.at("HH:MM").do(f)],
    which has no [last_run]: when the anchor is strictly later than
    the time of day read at configuration, [next_run] is the anchor
    time on the day of configuration; otherwise it is the anchor time
    on the day after.  The day is that of the reading the schedule
    starts from, the time of day that of the reading the correction
    step takes. *)
Theorem first_schedule_same_day clock w s h m f
  (Hs : parse_fields s = Ok (h, m))
  (Hh : 0 <= h <= 23) (Hm : 0 <= m <= 59)
  (Hv : DT.valid (clock (ticks w)) = true)
  (Hv' : DT.valid (clock (ticks w) + DT.us_per_day) = true) :
  let t1 := clock (ticks w) in
  let t2 := clock (S (ticks w)) in
  let anchor := h * DT.us_per_hour + m * DT.us_per_minute in
  let res := daily_at clock s f w in
  fst res = Ok (fresh w) /\
  last_run (heap (snd res) (fresh w)) = None /\
  next_run (heap (snd res) (fresh w)) =
  Some (if DT.tod_of t2 <? anchor
        then DT.day_of t1 * DT.us_per_day + anchor
        else (DT.day_of t1 + 1) * DT.us_per_day + anchor).
Proof.
  intros t1 t2 anchor res. subst res.
  assert (Ha : DT.time_ok (DT.mktime h m 0 0)).
  { unfold DT.time_ok. cbn. lia. }
  assert (Hus : DT.time_us (DT.mktime h m 0 0) = anchor).
  { unfold DT.time_us, anchor. cbn. ring. }
  assert (Hws : DT.time_us (DT.whole_second (DT.mktime h m 0 0)) = anchor).
  { exact Hus. }
  unfold daily_at.
  erewrite bind_ok by reflexivity.
  erewrite bind_ok by reflexivity.
  erewrite bind_ok.
  2:{ rewrite at_unfold. cbn [heap fresh jobs ticks trace]. simpl_heap.
      rewrite Hs. cbn [fst snd].
      rewrite (proj2 (in_range_true 0 23 h) Hh),
              (proj2 (in_range_true 0 59 m) Hm).
      reflexivity. }
  rewrite do_unfold. cbn [heap fresh jobs ticks trace]. simpl_heap.
  erewrite (schedule_completes clock (fresh w) _ Days).
  - cbn [fst snd]. split; [reflexivity|].
    rewrite next_run_scheduled. unfold scheduled. cbn [heap ticks]. simpl_heap.
    split; [reflexivity|]. f_equal. unfold due_time. cbn.
    fold t1 t2. rewrite DTFacts.time_gt_now by exact Ha. rewrite Hus.
    change (t1 + 86400000000) with (t1 + 1 * DT.us_per_day).
    rewrite replace_after_days, Hws.
    change DT.us_per_day with 86400000000.
    destruct (DT.tod_of t2 <? anchor); lia.
  - cbn. rewrite update_same. reflexivity.
  - intros _. reflexivity.
  - cbn. rewrite update_same. reflexivity.
  - cbn. rewrite update_same. cbn. exact Hv'.
  - cbn [heap ticks]. rewrite update_same. unfold due_time. cbn.
    destruct (anchored_valid (clock (ticks w)) _ Ha Hv Hv') as [V1 V2].
    destruct (DT.time_gt _ _); assumption.
Qed.

Lemma first_schedule_same_day_witness :
  let morning := ticking (instant 738000 9 0 0) in
  let noon := ticking (instant 738000 11 0 0) in
  next_run (heap (snd (daily_at morning "10:30" 7%nat empty_world)) O)
  = Some (instant 738000 10 30 0) /\
  next_run (heap (snd (daily_at noon "10:30" 7%nat empty_world)) O)
  = Some (instant 738001 10 30 0).
Proof.
  split.
  - apply (first_schedule_same_day (ticking (instant 738000 9 0 0))
             empty_world "10:30" 10 30 7%nat);
      [reflexivity | lia | lia | reflexivity | reflexivity].
  - apply (first_schedule_same_day (ticking (instant 738000 11 0 0))
             empty_world "10:30" 10 30 7%nat);
      [reflexivity | lia | lia | reflexivity | reflexivity].
Defined.

(** ** Selection and ordering in [run_pending] *)

Lemma should_run_some clock r w n :
  next_run (heap w r) = Some n ->
  should_run clock r w =
  (Ok (n <=? clock (ticks w)),
   mkWorld (heap w) (fresh w) (jobs w) (S (ticks w)) (trace w)).
Proof. intros H. unfold should_run. unfold_m. rewrite H. reflexivity. Qed.

Lemma should_run_none clock r w :
  next_run (heap w r) = None ->
  should_run clock r w =
  (Raise TypeError,
   mkWorld (heap w) (fresh w) (jobs w) (S (ticks w)) (trace w)).
Proof. intros H. unfold should_run. unfold_m. rewrite H. reflexivity. Qed.

Lemma due_at_some h r n : next_run (h r) = Some n -> due_at h r = n.
Proof. unfold due_at. intros ->. reflexivity. Qed.

Lemma select_due clock l : forall w,
  Forall (has_next_run w) l ->
  select (should_run clock) l w =
  (Ok (due_from clock (heap w) (ticks w) l),
   mkWorld (heap w) (fresh w) (jobs w) (List.length l + ticks w) (trace w)).
Proof.
  induction l as [|r l IH]; intros w H.
  - destruct w; reflexivity.
  - inversion H as [|? ? Hr Hl]; subst. cbn [select due_from].
    destruct (next_run (heap w r)) as [n|] eqn:Hn; [|elim Hr; exact Hn].
    erewrite bind_ok by (apply should_run_some; exact Hn).
    erewrite bind_ok by (apply IH; exact Hl).
    cbn [heap ticks fresh jobs trace]. unfold ret.
    rewrite (due_at_some _ _ _ Hn).
    rewrite Nat.add_succ_r. reflexivity.
Qed.

Lemma job_lt_some a b w :
  has_next_run w a -> has_next_run w b ->
  job_lt a b w = (Ok (due_at (heap w) a <? due_at (heap w) b), w).
Proof.
  unfold has_next_run, job_lt, due_at. unfold_m. intros Ha Hb.
  destruct (next_run (heap w a)); [|congruence].
  destruct (next_run (heap w b)); [|congruence]. reflexivity.
Qed.

Lemma in_place h x l y : In y (place h x l) <-> y = x \/ In y l.
Proof.
  induction l as [|z l IH]; cbn.
  - intuition.
  - destruct (due_at h z <? due_at h x); cbn; rewrite ?IH; intuition.
Qed.

Lemma place_perm h x l : Permutation (place h x l) (x :: l).
Proof.
  induction l as [|z l IH]; cbn.
  - reflexivity.
  - destruct (due_at h z <? due_at h x).
    + rewrite IH. apply perm_swap.
    + reflexivity.
Qed.

Lemma by_next_run_perm h l : Permutation (by_next_run h l) l.
Proof.
  induction l as [|x l IH]; cbn.
  - reflexivity.
  - rewrite place_perm. constructor. exact IH.
Qed.

Lemma place_sorted h x l :
  StronglySorted (before h) l -> StronglySorted (before h) (place h x l).
Proof.
  induction l as [|z l IH]; cbn; intros Hs.
  - repeat constructor.
  - inversion Hs as [|? ? Hl Hz]; subst.
    destruct (Z.ltb_spec (due_at h z) (due_at h x)).
    + constructor; [auto|].
      apply Forall_forall. intros y Hy. apply in_place in Hy.
      destruct Hy as [->|Hy]; [unfold before; lia|].
      rewrite Forall_forall in Hz. auto.
    + constructor; [exact Hs|].
      constructor; [unfold before; lia|].
      rewrite Forall_forall in *. intros y Hy. specialize (Hz y Hy).
      unfold before in *. lia.
Qed.

Lemma by_next_run_sorted h l : StronglySorted (before h) (by_next_run h l).
Proof.
  induction l as [|x l IH]; cbn.
  - constructor.
  - apply place_sorted. exact IH.
Qed.

Lemma insert_place x l : forall w,
  has_next_run w x -> Forall (has_next_run w) l ->
  Scheduler.insert x l w = (Ok (place (heap w) x l), w).
Proof.
  induction l as [|y l IH]; intros w Hx Hl; cbn [Scheduler.insert place].
  - reflexivity.
  - inversion Hl; subst.
    erewrite bind_ok by (apply job_lt_some; assumption).
    destruct (due_at (heap w) y <? due_at (heap w) x); [|reflexivity].
    erewrite bind_ok by (apply IH; assumption). reflexivity.
Qed.

Lemma sorted_by_next_run l : forall w,
  Forall (has_next_run w) l ->
  Scheduler.sorted l w = (Ok (by_next_run (heap w) l), w).
Proof.
  induction l as [|x l IH]; intros w Hl; cbn [Scheduler.sorted by_next_run].
  - reflexivity.
  - inversion Hl; subst.
    erewrite bind_ok by (apply IH; assumption).
    apply insert_place; [assumption|].
    apply Forall_forall. intros y Hy.
    apply (Permutation_in _ (by_next_run_perm _ _)) in Hy.
    rewrite Forall_forall in *. auto.
Qed.

Lemma in_due_from clock h l : forall k r,
  In r (due_from clock h k l) <->
  exists i, nth_error l i = Some r /\ due_at h r <= clock (i + k)%nat.
Proof.
  induction l as [|x l IH]; intros k r; cbn [due_from].
  - split; [intros []|]. intros ([|i] & H & _); discriminate.
  - destruct (Z.leb_spec (due_at h x) (clock k)) as [Hd|Hd].
    + cbn [In]. rewrite IH. split.
      * intros [->|(i & Hi & Hc)].
        -- exists O. auto.
        -- exists (S i). rewrite Nat.add_succ_r in Hc. auto.
      * intros ([|i] & Hi & Hc); cbn in Hi.
        -- left. congruence.
        -- right. exists i. rewrite Nat.add_succ_r. auto.
    + rewrite IH. split.
      * intros (i & Hi & Hc). exists (S i).
        rewrite Nat.add_succ_r in Hc. auto.
      * intros ([|i] & Hi & Hc); cbn in Hi.
        -- inversion Hi. subst. cbn in Hc. lia.
        -- exists i. rewrite Nat.add_succ_r. auto.
Qed.

Lemma due_from_sublist clock h l : forall k,
  NoDup l -> NoDup (due_from clock h k l).
Proof.
  induction l as [|x l IH]; intros k Hn; cbn [due_from].
  - constructor.
  - inversion Hn; subst.
    destruct (due_at h x <=? clock k); [|auto].
    constructor; [|auto].
    rewrite in_due_from. intros (i & Hi & _).
    apply nth_error_In in Hi. contradiction.
Qed.

(** ** Running a list of jobs *)

Lemma the_action_some j a : job_func j = Some a -> the_action j = a.
Proof. unfold the_action. intros ->. reflexivity. Qed.

Lemma the_unit_some j u : unit j = Some u -> the_unit j = u.
Proof. unfold the_unit. intros ->. reflexivity. Qed.

Lemma run_of_ready clock outcome r w :
  ready clock outcome (heap w r) ->
  run clock outcome r w = (Ok tt, ran clock [] r w).
Proof.
  intros (a & u & Hf & Hu & Hat & Htd & Hv & Ho).
  rewrite (run_ready clock outcome r w a u) by auto.
  unfold ran. rewrite (the_action_some _ _ Hf), (the_unit_some _ _ Hu).
  reflexivity.
Qed.

(** [time.sleep] takes the delays from nothing to [max_sleep], and
    refuses every other: with an overflow error beyond 64 bits of
    nanoseconds, on either side, and with a value error below zero. *)
Lemma sleep_cases d w :
  sleep d w =
  if (d <? - max_sleep) || (max_sleep <? d) then (Raise OverflowError, w)
  else if d <? 0 then (Raise ValueError, w)
  else (Ok tt, mkWorld (heap w) (fresh w) (jobs w) (ticks w)
                       (trace w ++ [Sleep d])).
Proof.
  unfold sleep.
  replace (d * 1000 <? - 2 ^ 63) with (d <? - max_sleep).
  2:{ change max_sleep with 9223372036854775.
      change (2 ^ 63) with 9223372036854775808.
      destruct (Z.ltb_spec d (- 9223372036854775));
        destruct (Z.ltb_spec (d * 1000) (- 9223372036854775808));
        try reflexivity; lia. }
  replace (2 ^ 63 - 1 <? d * 1000) with (max_sleep <? d).
  2:{ change max_sleep with 9223372036854775.
      change (2 ^ 63) with 9223372036854775808.
      destruct (Z.ltb_spec 9223372036854775 d);
        destruct (Z.ltb_spec (9223372036854775808 - 1) (d * 1000));
        try reflexivity; lia. }
  reflexivity.
Qed.

Lemma sleep_accepts d w :
  0 <= d <= max_sleep ->
  sleep d w = (Ok tt, mkWorld (heap w) (fresh w) (jobs w) (ticks w)
                              (trace w ++ [Sleep d])).
Proof.
  intros Hd. rewrite sleep_cases.
  destruct (Z.ltb_spec d (- max_sleep)); [unfold max_sleep in *; cbn in *; lia|].
  destruct (Z.ltb_spec max_sleep d); [lia|].
  destruct (Z.ltb_spec d 0); [lia|]. reflexivity.
Qed.

Lemma run_then_sleep clock outcome d r w :
  0 <= d <= max_sleep ->
  ready clock outcome (heap w r) ->
  (run clock outcome r ;;; sleep d) w = (Ok tt, ran clock [Sleep d] r w).
Proof.
  intros Hd Hr. erewrite bind_ok by (apply run_of_ready; exact Hr).
  rewrite sleep_accepts by exact Hd.
  unfold ran. cbn [heap fresh jobs ticks trace].
  rewrite <- app_assoc. reflexivity.
Qed.

(** A run leaves the configuration of every job as it was. *)
Lemma ran_config clock post r w r' :
  interval (heap (ran clock post r w) r') = interval (heap w r') /\
  job_func (heap (ran clock post r w) r') = job_func (heap w r') /\
  unit (heap (ran clock post r w) r') = unit (heap w r') /\
  at_time (heap (ran clock post r w) r') = at_time (heap w r').
Proof.
  unfold ran. cbn [heap]. unfold update.
  destruct (Nat.eqb_spec r' r); [subst|]; repeat split; reflexivity.
Qed.

Lemma ready_ran clock outcome post r w r' :
  ready clock outcome (heap w r') ->
  ready clock outcome (heap (ran clock post r w) r').
Proof.
  destruct (ran_config clock post r w r') as (Hi & Hf & Hu & Ha).
  unfold ready. rewrite Hi, Hf, Hu, Ha. auto.
Qed.

Lemma for_each_ran clock outcome post (body : ref -> M Datatypes.unit) l :
  (forall r w, ready clock outcome (heap w r) ->
               body r w = (Ok tt, ran clock post r w)) ->
  forall w,
    Forall (fun r => ready clock outcome (heap w r)) l ->
    for_each l body w = (Ok tt, ran_all clock post l w).
Proof.
  intros Hbody. induction l as [|r l IH]; intros w Hl; cbn [for_each ran_all].
  - reflexivity.
  - inversion Hl; subst.
    erewrite bind_ok by (apply Hbody; assumption).
    apply IH. eapply Forall_impl; [|eassumption].
    intros r'. apply ready_ran.
Qed.

Lemma ran_all_frame clock post l : forall w,
  fresh (ran_all clock post l w) = fresh w /\
  jobs (ran_all clock post l w) = jobs w /\
  ticks (ran_all clock post l w) = (2 * List.length l + ticks w)%nat.
Proof.
  induction l as [|r l IH]; intros w; cbn [ran_all].
  - auto.
  - destruct (IH (ran clock post r w)) as (Hf & Hj & Ht).
    rewrite Hf, Hj, Ht. cbn. repeat split. lia.
Qed.

Lemma runs_of_ext h h' post l :
  (forall r, job_func (h' r) = job_func (h r)) ->
  runs_of h' post l = runs_of h post l.
Proof.
  intros H. unfold runs_of. apply flat_map_ext. intros r.
  unfold the_action. rewrite H. reflexivity.
Qed.

Lemma ran_all_trace clock post l : forall w,
  trace (ran_all clock post l w) = trace w ++ runs_of (heap w) post l.
Proof.
  induction l as [|r l IH]; intros w; cbn [ran_all].
  - unfold runs_of. cbn. rewrite app_nil_r. reflexivity.
  - rewrite IH.
    rewrite (runs_of_ext (heap w) (heap (ran clock post r w)))
      by (intros r'; apply ran_config).
    unfold ran at 1. cbn [trace]. rewrite <- app_assoc. reflexivity.
Qed.

Lemma ran_all_other clock post l : forall w r,
  ~ In r l -> heap (ran_all clock post l w) r = heap w r.
Proof.
  induction l as [|x l IH]; intros w r Hr; cbn [ran_all].
  - reflexivity.
  - rewrite IH by (cbn in Hr; tauto).
    unfold ran. cbn [heap]. apply update_other. cbn in Hr. intuition.
Qed.

(** In a list without repetition, the job at position [i] runs on the
    clock readings [2i] and [2i+1] after the start. *)
Lemma ran_all_at clock post l : forall w i r,
  NoDup l -> nth_error l i = Some r ->
  heap (ran_all clock post l w) r =
  after_run (clock (2 * i + ticks w)%nat) (clock (S (2 * i + ticks w)))
            (the_unit (heap w r)) (heap w r).
Proof.
  induction l as [|x l IH]; intros w i r Hn Hi.
  - destruct i; discriminate.
  - inversion Hn; subst. destruct i as [|i]; cbn in Hi.
    + inversion Hi. subst. cbn [ran_all].
      rewrite ran_all_other by assumption.
      unfold ran. cbn [heap]. rewrite update_same. reflexivity.
    + cbn [ran_all]. rewrite (IH _ i r) by assumption.
      assert (r <> x) by (intros ->; apply nth_error_In in Hi; contradiction).
      unfold ran at 3 4. cbn [heap ticks]. rewrite !update_other by assumption.
      unfold ran. cbn [ticks].
      replace (2 * i + S (S (ticks w)))%nat with (2 * S i + ticks w)%nat by lia.
      reflexivity.
Qed.

Lemma runs_of_nil h l :
  runs_of h [] l = map (fun r => Invoke r (the_action (h r))) l.
Proof.
  unfold runs_of. induction l as [|x l IH]; cbn; [|rewrite IH]; reflexivity.
Qed.

(** [run_pending] in closed form, when every job of the collection is
    ready and has a [next_run]. *)
Lemma run_pending_closed clock outcome w :
  Forall (fun r => ready clock outcome (heap w r)) (jobs w) ->
  Forall (has_next_run w) (jobs w) ->
  Scheduler.run_pending clock outcome w =
  (Ok tt,
   ran_all clock []
     (by_next_run (heap w) (due_from clock (heap w) (ticks w) (jobs w)))
     (mkWorld (heap w) (fresh w) (jobs w)
              (List.length (jobs w) + ticks w) (trace w))).
Proof.
  intros Hr Hn. unfold Scheduler.run_pending.
  erewrite bind_ok by reflexivity.
  erewrite bind_ok by (apply select_due; exact Hn).
  assert (Hin : forall r,
             In r (due_from clock (heap w) (ticks w) (jobs w)) ->
             In r (jobs w)).
  { intros r H. apply in_due_from in H. destruct H as (i & Hi & _).
    eapply nth_error_In; eassumption. }
  erewrite bind_ok.
  2:{ apply sorted_by_next_run. cbn [heap].
      apply Forall_forall. intros r H. rewrite Forall_forall in Hn.
      apply (Hn r). auto. }
  cbn [heap].
  apply (for_each_ran clock outcome).
  - intros r v. apply run_of_ready.
  - cbn [heap]. apply Forall_forall. intros r H.
    apply (Permutation_in _ (by_next_run_perm _ _)) in H.
    rewrite Forall_forall in Hr. auto.
Qed.

Lemma sorted_earlier_first h l a b :
  StronglySorted (before h) l ->
  In a l -> In b l -> due_at h a < due_at h b ->
  exists l1 l2 l3, l = l1 ++ a :: l2 ++ b :: l3.
Proof.
  induction l as [|x l IH]; intros Hs Ha Hb Hlt; [destruct Ha|].
  inversion Hs as [|? ? Hl Hx]; subst. rewrite Forall_forall in Hx.
  destruct Ha as [->|Ha].
  - destruct Hb as [->|Hb]; [lia|].
    apply in_split in Hb. destruct Hb as (l2 & l3 & ->).
    exists [], l2, l3. reflexivity.
  - destruct Hb as [->|Hb].
    + specialize (Hx a Ha). unfold before in Hx. lia.
    + destruct (IH Hl Ha Hb Hlt) as (l1 & l2 & l3 & ->).
      exists (x :: l1), l2, l3. reflexivity.
Qed.

(** ** The jobs [run_pending] runs, and their order (claim C3) *)

(** C3.  In a scheduler whose jobs are all configured to the end and
    whose actions return, [run_pending()] returns, and the jobs it has
    run are exactly those whose due predicate held when it was
    checked, each run once, in ascending order of [next_run]: of two
    due jobs with [next_run] T1 < T2 the first is run before the
    second. *)
Theorem run_pending_runs_due_in_order clock outcome w
  (Hready : Forall (fun r => ready clock outcome (heap w r)) (jobs w))
  (Hnext : Forall (has_next_run w) (jobs w)) :
  exists order,
    fst (Scheduler.run_pending clock outcome w) = Ok tt /\
    trace (snd (Scheduler.run_pending clock outcome w))
    = trace w ++ map (fun r => Invoke r (the_action (heap w r))) order /\
    (forall r, In r order <->
               exists i, nth_error (jobs w) i = Some r /\
                         due_at (heap w) r <= clock (i + ticks w)%nat) /\
    StronglySorted (before (heap w)) order /\
    (NoDup (jobs w) -> NoDup order) /\
    (forall a b, In a order -> In b order ->
                 due_at (heap w) a < due_at (heap w) b ->
                 exists l1 l2 l3, order = l1 ++ a :: l2 ++ b :: l3).
Proof.
  exists (by_next_run (heap w) (due_from clock (heap w) (ticks w) (jobs w))).
  rewrite run_pending_closed by assumption. cbn [fst snd].
  split; [reflexivity|]. split.
  { rewrite ran_all_trace. cbn [trace heap]. rewrite runs_of_nil. reflexivity. }
  split.
  { intros r. rewrite <- in_due_from. split; intros H.
    - eapply Permutation_in; [apply by_next_run_perm|exact H].
    - eapply Permutation_in;
        [apply Permutation_sym, by_next_run_perm|exact H]. }
  split; [apply by_next_run_sorted|]. split.
  { intros Hn. eapply Permutation_NoDup.
    - apply Permutation_sym, by_next_run_perm.
    - apply due_from_sublist. exact Hn. }
  intros a b. apply sorted_earlier_first, by_next_run_sorted.
Qed.

(** *** The sample world *)

Lemma ticking_range t0 k :
  t0 <= ticking t0 k <= t0 + 100 * DT.us_per_second.
Proof.
  unfold ticking. change DT.us_per_second with 1000000.
  pose proof (Nat.le_min_r k 100). lia.
Qed.

Lemma jumping_range t0 from gap k :
  0 <= gap ->
  t0 <= jumping t0 from gap k <= t0 + 100 * DT.us_per_second + gap.
Proof.
  intros Hg. unfold jumping. pose proof (ticking_range t0 k).
  destruct (from <=? k)%nat; lia.
Qed.

Lemma valid_between lo hi x :
  DT.valid lo = true -> DT.valid hi = true -> lo <= x <= hi ->
  DT.valid x = true.
Proof.
  unfold DT.valid. rewrite !andb_true_iff, !Z.leb_le, !Z.ltb_lt. lia.
Qed.

Lemma sample_clock_valid p k :
  0 <= p <= DT.us_per_week ->
  DT.valid (sample_clock k + p) = true.
Proof.
  intros Hp.
  pose proof (jumping_range (instant 738000 9 0 0) 3
                (10 * DT.us_per_second) k ltac:(easy)) as H.
  apply (valid_between (instant 738000 9 0 0)
           (instant 738000 9 0 0 + 100 * DT.us_per_second
            + 10 * DT.us_per_second + DT.us_per_week));
    [reflexivity | reflexivity |].
  fold sample_clock in H.
  change DT.us_per_week with 604800000000 in *. lia.
Qed.

Lemma ready_unanchored clock outcome j a u :
  job_func j = Some a -> unit j = Some u -> at_time j = None ->
  timedelta_of u (interval j) = Ok (interval j * unit_us u) ->
  (forall k, DT.valid (clock k + interval j * unit_us u) = true) ->
  (forall n, outcome a n = None) ->
  ready clock outcome j.
Proof.
  intros Hf Hu Ha Htd Hv Ho. exists a, u. repeat split; auto.
  intros H. now elim H.
Qed.

Ltac sample_ready a u :=
  apply (ready_unanchored _ _ _ a u);
  [ reflexivity | reflexivity | reflexivity | reflexivity
  | intros k; apply sample_clock_valid; vm_compute; split; discriminate
  | reflexivity ].

Lemma sample_world_ready :
  Forall (fun r => ready sample_clock always_returns (heap sample_world r))
         (jobs sample_world).
Proof.
  change (jobs sample_world) with [0; 1; 2]%nat.
  constructor; [sample_ready 1%nat Seconds|].
  constructor; [sample_ready 2%nat Seconds|].
  constructor; [sample_ready 3%nat Hours|].
  constructor.
Defined.

Lemma sample_world_has_next_run :
  Forall (has_next_run sample_world) (jobs sample_world).
Proof.
  change (jobs sample_world) with [0; 1; 2]%nat.
  constructor; [vm_compute; discriminate|].
  constructor; [vm_compute; discriminate|].
  constructor; [vm_compute; discriminate|].
  constructor.
Defined.

Lemma run_pending_runs_due_in_order_witness :
  exists order,
    fst (Scheduler.run_pending sample_clock always_returns sample_world)
    = Ok tt /\
    trace (snd (Scheduler.run_pending sample_clock always_returns sample_world))
    = trace sample_world
      ++ map (fun r => Invoke r (the_action (heap sample_world r))) order /\
    (forall r, In r order <->
               exists i, nth_error (jobs sample_world) i = Some r /\
                         due_at (heap sample_world) r
                         <= sample_clock (i + ticks sample_world)%nat) /\
    StronglySorted (before (heap sample_world)) order /\
    (NoDup (jobs sample_world) -> NoDup order) /\
    (forall a b, In a order -> In b order ->
                 due_at (heap sample_world) a < due_at (heap sample_world) b ->
                 exists l1 l2 l3, order = l1 ++ a :: l2 ++ b :: l3).
Proof.
  exact (run_pending_runs_due_in_order sample_clock always_returns
           sample_world sample_world_ready sample_world_has_next_run).
Defined.

(** In the sample world the two jobs that are due run, the one with
    the earlier [next_run] first, although it is the later in the
    collection; the job that is not due does not run. *)
Example run_pending_sample :
  jobs sample_world = [0; 1; 2]%nat /\
  map (due_at (heap sample_world)) [0; 1; 2]%nat
  = [instant 738000 9 0 5; instant 738000 9 0 3; instant 738000 10 0 2] /\
  fst (Scheduler.run_pending sample_clock always_returns sample_world) = Ok tt /\
  trace (snd (Scheduler.run_pending sample_clock always_returns sample_world))
  = [Invoke 1%nat 2%nat; Invoke 0%nat 1%nat].
Proof. repeat split; vm_compute; reflexivity. Qed.

(** ** A pass in which nothing is due (claim C9) *)

Lemma no_member_nil {A} (l : list A) : (forall x, ~ In x l) -> l = [].
Proof. destruct l as [|x l]; [reflexivity|]. intros H. elim (H x). left. reflexivity. Qed.

(** C9.  When no job is due, that is when every job has a [next_run]
    later than the clock reading it is checked against,
    [run_pending()] returns, calls no action, and leaves the
    [last_run] and the [next_run] of every job as they were. *)
Theorem run_pending_none_due clock outcome w
  (Hnone : forall i r,
      nth_error (jobs w) i = Some r ->
      exists n, next_run (heap w r) = Some n /\ clock (i + ticks w)%nat < n) :
  let res := Scheduler.run_pending clock outcome w in
  fst res = Ok tt /\
  trace (snd res) = trace w /\
  jobs (snd res) = jobs w /\
  forall r, last_run (heap (snd res) r) = last_run (heap w r) /\
            next_run (heap (snd res) r) = next_run (heap w r).
Proof.
  intros res. subst res.
  assert (Hn : Forall (has_next_run w) (jobs w)).
  { apply Forall_forall. intros r Hr. apply In_nth_error in Hr.
    destruct Hr as (i & Hi). destruct (Hnone i r Hi) as (n & Hn & _).
    unfold has_next_run. congruence. }
  assert (Hd : due_from clock (heap w) (ticks w) (jobs w) = []).
  { apply no_member_nil. intros r Hr. apply in_due_from in Hr.
    destruct Hr as (i & Hi & Hle). destruct (Hnone i r Hi) as (n & Hr & Hlt).
    rewrite (due_at_some _ _ _ Hr) in Hle. lia. }
  unfold Scheduler.run_pending.
  erewrite bind_ok by reflexivity.
  erewrite bind_ok by (apply select_due; exact Hn).
  rewrite Hd. cbn. auto.
Qed.

Lemma run_pending_none_due_witness :
  let w := snd (two_slow_jobs (ticking (instant 738000 9 0 0)) empty_world) in
  let res :=
    Scheduler.run_pending (ticking (instant 738000 9 0 0)) always_returns w in
  fst res = Ok tt /\
  trace (snd res) = trace w /\
  jobs (snd res) = jobs w /\
  forall r, last_run (heap (snd res) r) = last_run (heap w r) /\
            next_run (heap (snd res) r) = next_run (heap w r).
Proof.
  apply (run_pending_none_due (ticking (instant 738000 9 0 0)) always_returns
           (snd (two_slow_jobs (ticking (instant 738000 9 0 0)) empty_world))).
  intros i r.
  change (jobs (snd (two_slow_jobs (ticking (instant 738000 9 0 0))
                       empty_world)))
    with [0; 1]%nat.
  destruct i as [|[|i]]; cbn [nth_error]; intros H; inversion H; subst.
  - eexists. split; [vm_compute; reflexivity|]. vm_compute. reflexivity.
  - eexists. split; [vm_compute; reflexivity|]. vm_compute. reflexivity.
  - destruct i; discriminate.
Defined.

(** ** A job that is overdue runs once (claim C4) *)

Lemma invoke_in_map h r a l :
  In (Invoke r a) (map (fun x => Invoke x (the_action (h x))) l) -> In r l.
Proof.
  rewrite in_map_iff. intros (x & E & Hx). inversion E. subst. exact Hx.
Qed.

Lemma nodup_split {A} (l1 l2 : list A) x :
  NoDup (l1 ++ x :: l2) -> ~ In x l1 /\ ~ In x l2.
Proof.
  intros H. apply NoDup_remove_2 in H. rewrite in_app_iff in H. tauto.
Qed.

Lemma nth_error_middle {A} (l1 l2 : list A) x :
  nth_error (l1 ++ x :: l2) (List.length l1) = Some x.
Proof. rewrite nth_error_app2, Nat.sub_diag by lia. reflexivity. Qed.

(** C4, as amended.  A job that is due, by however many of its periods
    it is overdue, is run exactly once by one [run_pending()], and its
    new [next_run] is computed from the clock reading taken right
    after the run: that reading plus the period, with the time of day
    overwritten by the anchor when the job has one.  The [next_run] it
    had, and so the ticks it missed, play no part. *)
Theorem overdue_job_runs_once clock outcome w r i
  (Hready : Forall (fun r => ready clock outcome (heap w r)) (jobs w))
  (Hnext : Forall (has_next_run w) (jobs w))
  (Hnodup : NoDup (jobs w))
  (Hi : nth_error (jobs w) i = Some r)
  (Hdue : due_at (heap w) r <= clock (i + ticks w)%nat) :
  let res := Scheduler.run_pending clock outcome w in
  let j := heap w r in
  exists l1 l2 k,
    fst res = Ok tt /\
    trace (snd res) = trace w ++ l1 ++ Invoke r (the_action j) :: l2 /\
    (forall a, ~ In (Invoke r a) l1 /\ ~ In (Invoke r a) l2) /\
    last_run (heap (snd res) r) = Some (clock k) /\
    next_run (heap (snd res) r) =
    Some (match at_time j with
          | None => clock (S k) + interval j * unit_us (the_unit j)
          | Some a =>
            DT.replace_time
              (clock (S k) + interval j * unit_us (the_unit j)) a
          end).
Proof.
  intros res j. subst res j.
  rewrite run_pending_closed by assumption. cbn [fst snd].
  set (order := by_next_run (heap w)
                  (due_from clock (heap w) (ticks w) (jobs w))).
  assert (Hin : In r order).
  { eapply Permutation_in; [apply Permutation_sym, by_next_run_perm|].
    apply in_due_from. eauto. }
  assert (Hnd : NoDup order).
  { eapply Permutation_NoDup;
      [apply Permutation_sym, by_next_run_perm|].
    apply due_from_sublist. exact Hnodup. }
  destruct (in_split _ _ Hin) as (o1 & o2 & Ho).
  rewrite Ho in Hnd. destruct (nodup_split _ _ _ Hnd) as [H1 H2].
  exists (map (fun x => Invoke x (the_action (heap w x))) o1),
         (map (fun x => Invoke x (the_action (heap w x))) o2),
         (2 * List.length o1 + (List.length (jobs w) + ticks w))%nat.
  split; [reflexivity|]. split.
  { rewrite ran_all_trace. cbn [trace heap]. rewrite runs_of_nil, Ho.
    rewrite map_app. reflexivity. }
  split.
  { intros a. split; intros H; apply invoke_in_map in H; contradiction. }
  rewrite (ran_all_at clock [] order _ (List.length o1) r);
    [| rewrite Ho; exact Hnd | rewrite Ho; apply nth_error_middle ].
  cbn [heap ticks]. unfold after_run, next_due. cbn [last_run next_run].
  split; reflexivity.
Qed.

Lemma jumping_valid t0 from gap p k :
  0 <= gap -> 0 <= p ->
  DT.valid t0 = true ->
  DT.valid (t0 + 100 * DT.us_per_second + gap + p) = true ->
  DT.valid (jumping t0 from gap k + p) = true.
Proof.
  intros Hg Hp H0 H1. pose proof (jumping_range t0 from gap k Hg).
  apply (valid_between t0 (t0 + 100 * DT.us_per_second + gap + p));
    [assumption | assumption | lia].
Qed.

Lemma overdue_job_runs_once_witness :
  let clock := jumping (instant 738000 9 0 0) 1 (5 * DT.us_per_second) in
  let w := snd (one_second_job clock 7%nat empty_world) in
  let res := Scheduler.run_pending clock always_returns w in
  exists l1 l2 k,
    fst res = Ok tt /\
    trace (snd res) = trace w ++ l1 ++ Invoke O (the_action (heap w O)) :: l2 /\
    (forall a, ~ In (Invoke O a) l1 /\ ~ In (Invoke O a) l2) /\
    last_run (heap (snd res) O) = Some (clock k) /\
    next_run (heap (snd res) O) =
    Some (match at_time (heap w O) with
          | None =>
            clock (S k)
            + interval (heap w O) * unit_us (the_unit (heap w O))
          | Some a =>
            DT.replace_time
              (clock (S k)
               + interval (heap w O) * unit_us (the_unit (heap w O))) a
          end).
Proof.
  apply (overdue_job_runs_once
           (jumping (instant 738000 9 0 0) 1 (5 * DT.us_per_second))
           always_returns
           (snd (one_second_job
                   (jumping (instant 738000 9 0 0) 1 (5 * DT.us_per_second))
                   7%nat empty_world))
           O O).
  - constructor; [|constructor].
    apply (ready_unanchored _ _ _ 7%nat Seconds);
      [ reflexivity | reflexivity | reflexivity | reflexivity
      | intros k; apply jumping_valid;
        [ vm_compute; discriminate | vm_compute; discriminate
        | reflexivity | reflexivity ]
      | reflexivity ].
  - constructor; [vm_compute; discriminate|constructor].
  - constructor; [intros []|constructor].
  - reflexivity.
  - vm_compute. discriminate.
Defined.

(** C4 as stated fails for an anchored job.  A job configured by
    [every(1).days.at("10:30").do(f)] on day 738000 is checked three
    days later, at 12:00.  It runs once, and its new [next_run] is
    10:30 of the next day: neither the time of the run plus a day, nor
    the reading the schedule starts from plus a day. *)
Lemma anchored_next_run_is_not_run_time_plus_period :
  let clock :=
    jumping (instant 738000 9 0 0) 2
            (3 * DT.us_per_day + 3 * DT.us_per_hour) in
  let w := snd (daily_at clock "10:30" 7%nat empty_world) in
  let res := Scheduler.run_pending clock always_returns w in
  next_run (heap w O) = Some (instant 738000 10 30 0) /\
  clock 2%nat = instant 738003 12 0 2 /\
  fst res = Ok tt /\
  trace (snd res) = [Invoke O 7%nat] /\
  last_run (heap (snd res) O) = Some (instant 738003 12 0 3) /\
  clock 4%nat = instant 738003 12 0 4 /\
  period (heap (snd res) O) = Some DT.us_per_day /\
  next_run (heap (snd res) O) = Some (instant 738004 10 30 0) /\
  instant 738004 10 30 0 <> instant 738003 12 0 3 + DT.us_per_day /\
  instant 738004 10 30 0 <> instant 738003 12 0 4 + DT.us_per_day.
Proof.
  repeat split; try (vm_compute; reflexivity); vm_compute; discriminate.
Qed.

(** ** [run_all] (claim C8) *)

(** C8.  [run_all(delay_seconds)], for a delay that [time.sleep]
    takes, which is one from nothing to [max_sleep], runs every job of
    the collection, whatever its [next_run], in the order of the
    collection, and sleeps [delay_seconds] after each run, so between
    any two consecutive runs; each run sets [last_run] and [next_run]
    as a run by [run_pending] does. *)
Theorem run_all_runs_every_job clock outcome w d
  (Hd : 0 <= d <= max_sleep)
  (Hready : Forall (fun r => ready clock outcome (heap w r)) (jobs w))
  (Hnodup : NoDup (jobs w)) :
  let res := Scheduler.run_all clock outcome d w in
  fst res = Ok tt /\
  trace (snd res)
  = trace w
    ++ flat_map (fun r => [Invoke r (the_action (heap w r)); Sleep d])
                (jobs w) /\
  forall i r,
    nth_error (jobs w) i = Some r ->
    last_run (heap (snd res) r) = Some (clock (2 * i + ticks w)%nat) /\
    next_run (heap (snd res) r)
    = Some (next_due (heap w r) (the_unit (heap w r))
                     (clock (S (2 * i + ticks w)))).
Proof.
  intros res. subst res. unfold Scheduler.run_all.
  erewrite bind_ok by reflexivity.
  rewrite (for_each_ran clock outcome [Sleep d]);
    [| intros r v; apply run_then_sleep; exact Hd | exact Hready ].
  cbn [fst snd]. split; [reflexivity|]. split.
  - apply ran_all_trace.
  - intros i r Hi. rewrite (ran_all_at clock [Sleep d] _ w i r) by assumption.
    unfold after_run. cbn [last_run next_run]. auto.
Qed.

Lemma run_all_runs_every_job_witness :
  let res := Scheduler.run_all sample_clock always_returns 100000 sample_world in
  fst res = Ok tt /\
  trace (snd res)
  = trace sample_world
    ++ flat_map (fun r => [Invoke r (the_action (heap sample_world r));
                           Sleep 100000])
                (jobs sample_world) /\
  forall i r,
    nth_error (jobs sample_world) i = Some r ->
    last_run (heap (snd res) r)
    = Some (sample_clock (2 * i + ticks sample_world)%nat) /\
    next_run (heap (snd res) r)
    = Some (next_due (heap sample_world r) (the_unit (heap sample_world r))
                     (sample_clock (S (2 * i + ticks sample_world)))).
Proof.
  apply (run_all_runs_every_job sample_clock always_returns sample_world 100000).
  - split; vm_compute; discriminate.
  - exact sample_world_ready.
  - change (jobs sample_world) with [0; 1; 2]%nat.
    repeat (constructor; [cbn; lia|]). constructor.
Defined.

(** The three jobs of the sample world, none of them due at the first
    of these readings, all run, in the order of the collection, with
    a sleep of a tenth of a second after each. *)
Example run_all_sample :
  trace (snd (Scheduler.run_all (ticking (instant 738000 9 0 0))
                always_returns 100000
                (snd (three_jobs (ticking (instant 738000 9 0 0)) empty_world))))
  = [Invoke 0%nat 1%nat; Sleep 100000; Invoke 1%nat 2%nat; Sleep 100000;
     Invoke 2%nat 3%nat; Sleep 100000].
Proof. vm_compute. reflexivity. Qed.

(** ** The scheduler's queries (claim C7) *)

Lemma min_from_least l : forall m w,
  has_next_run w m -> Forall (has_next_run w) l ->
  exists r,
    Scheduler.min_from m l w = (Ok r, w) /\
    In r (m :: l) /\
    forall r', In r' (m :: l) -> due_at (heap w) r <= due_at (heap w) r'.
Proof.
  induction l as [|x l IH]; intros m w Hm Hl; cbn [Scheduler.min_from].
  - exists m. split; [reflexivity|]. split; [left; reflexivity|].
    intros r' [<-|[]]. lia.
  - inversion Hl; subst.
    erewrite bind_ok by (apply job_lt_some; assumption).
    destruct (Z.ltb_spec (due_at (heap w) x) (due_at (heap w) m)) as [Hlt|Hge].
    + destruct (IH x w) as (r & Hr & Hin & Hmin); try assumption.
      exists r. split; [exact Hr|]. split.
      * destruct Hin as [<-|Hin]; cbn; auto.
      * intros r' [<-|[<-|Hr']].
        -- specialize (Hmin x (or_introl eq_refl)). lia.
        -- apply Hmin. left. reflexivity.
        -- apply Hmin. right. exact Hr'.
    + destruct (IH m w) as (r & Hr & Hin & Hmin); try assumption.
      exists r. split; [exact Hr|]. split.
      * destruct Hin as [<-|Hin]; cbn; auto.
      * intros r' [<-|[<-|Hr']].
        -- apply Hmin. left. reflexivity.
        -- specialize (Hmin m (or_introl eq_refl)). lia.
        -- apply Hmin. right. exact Hr'.
Qed.

(** C7.  On a collection that is not empty, of jobs that have a
    [next_run], [Scheduler.next_run] returns the least [next_run] of
    the collection, and [idle_seconds] its distance from the clock
    reading, in seconds as a float.  On an empty collection both fail
    with the error of
    [min]; after [clear()] the collection is empty, and both fail. *)
Theorem next_run_is_minimum clock w
  (Hnext : Forall (has_next_run w) (jobs w)) :
  match jobs w with
  | [] =>
    Scheduler.next_run w = (Raise ValueError, w) /\
    Scheduler.idle_seconds clock w = (Raise ValueError, w)
  | _ :: _ =>
    exists r n,
      In r (jobs w) /\ next_run (heap w r) = Some n /\
      (forall r', In r' (jobs w) -> n <= due_at (heap w) r') /\
      Scheduler.next_run w = (Ok (Some n), w) /\
      fst (Scheduler.idle_seconds clock w)
      = Ok (DT.total_seconds (n - clock (ticks w)))
  end
  /\ jobs (snd (Scheduler.clear w)) = []
  /\ fst (Scheduler.next_run (snd (Scheduler.clear w))) = Raise ValueError
  /\ fst (Scheduler.idle_seconds clock (snd (Scheduler.clear w)))
     = Raise ValueError.
Proof.
  split; [|repeat split; reflexivity].
  destruct (jobs w) as [|x l] eqn:Hj.
  - unfold Scheduler.idle_seconds, Scheduler.next_run, Scheduler.get_jobs.
    unfold bind. rewrite Hj. cbn. auto.
  - inversion Hnext as [|? ? Hx Hl]; subst.
    destruct (min_from_least l x w Hx Hl) as (r & Hr & Hin & Hmin).
    assert (Hrn : has_next_run w r).
    { rewrite Forall_forall in Hl. destruct Hin as [<-|Hin]; auto. }
    unfold has_next_run in Hrn.
    destruct (next_run (heap w r)) as [n|] eqn:Hn; [|congruence].
    exists r, n. split; [exact Hin|]. split; [exact Hn|]. split.
    { intros r' Hr'. specialize (Hmin r' Hr').
      rewrite (due_at_some _ _ _ Hn) in Hmin. exact Hmin. }
    assert (E : Scheduler.next_run w = (Ok (Some n), w)).
    { unfold Scheduler.next_run, Scheduler.get_jobs.
      unfold bind at 1. rewrite Hj. cbn [Scheduler.py_min].
      erewrite bind_ok by exact Hr.
      unfold bind, get, ret. rewrite Hn. reflexivity. }
    split; [exact E|].
    unfold Scheduler.idle_seconds. erewrite bind_ok by exact E.
    unfold_m. reflexivity.
Qed.

Lemma next_run_is_minimum_witness :
  (exists r n,
      In r (jobs sample_world) /\ next_run (heap sample_world r) = Some n /\
      (forall r', In r' (jobs sample_world) ->
                  n <= due_at (heap sample_world) r') /\
      Scheduler.next_run sample_world = (Ok (Some n), sample_world) /\
      fst (Scheduler.idle_seconds sample_clock sample_world)
      = Ok (DT.total_seconds (n - sample_clock (ticks sample_world))))
  /\ jobs (snd (Scheduler.clear sample_world)) = []
  /\ fst (Scheduler.next_run (snd (Scheduler.clear sample_world)))
     = Raise ValueError
  /\ fst (Scheduler.idle_seconds sample_clock
            (snd (Scheduler.clear sample_world)))
     = Raise ValueError.
Proof.
  exact (next_run_is_minimum sample_clock sample_world
           sample_world_has_next_run).
Defined.

Example next_run_sample :
  fst (Scheduler.next_run sample_world) = Ok (Some (instant 738000 9 0 3)) /\
  fst (Scheduler.next_run empty_world) = Raise ValueError /\
  fst (Scheduler.idle_seconds sample_clock empty_world) = Raise ValueError.
Proof. repeat split; vm_compute; reflexivity. Qed.

(** ** Jobs on which [do] has not been called (claim C10) *)

Lemma config_step_keeps c r w :
  jobs (snd (config_step c r w)) = jobs w /\
  forall r', job_func (heap (snd (config_step c r w)) r') = job_func (heap w r')
             /\ next_run (heap (snd (config_step c r w)) r') = next_run (heap w r').
Proof.
  assert (Hu : forall u r',
             job_func (update (heap w) r (set_unit u (heap w r)) r')
             = job_func (heap w r') /\
             next_run (update (heap w) r (set_unit u (heap w r)) r')
             = next_run (heap w r')).
  { intros u r'. unfold update. destruct (Nat.eqb_spec r' r); subst; auto. }
  destruct c; cbn [config_step];
    try (unfold second, seconds, minute, minutes, hour, hours,
           day, days, week, weeks; unfold_m;
         repeat (step; cbn [fst snd heap jobs]); auto).
  rewrite at_unfold.
  repeat (step; cbn [fst snd heap jobs]); auto.
  split; [reflexivity|]. intros r'. unfold update.
  destruct (Nat.eqb_spec r' r); subst; auto.
Qed.

Lemma configure_keeps cs r : forall w,
  jobs (configure cs r w) = jobs w /\
  forall r', job_func (heap (configure cs r w) r') = job_func (heap w r')
             /\ next_run (heap (configure cs r w) r') = next_run (heap w r').
Proof.
  induction cs as [|c cs IH]; intros w; cbn [configure].
  - auto.
  - destruct (IH (snd (config_step c r w))) as (Hj & Hh).
    destruct (config_step_keeps c r w) as (Hj' & Hh').
    split; [congruence|]. intros r'.
    destruct (Hh r'), (Hh' r'). split; congruence.
Qed.

Lemma run_unbound clock outcome r w :
  job_func (heap w r) = None ->
  run clock outcome r w = (Raise TypeError, w).
Proof. intros H. unfold run. unfold_m. rewrite H. reflexivity. Qed.

Lemma run_touches_only clock outcome r w :
  touches_only r w (snd (run clock outcome r w)).
Proof.
  unfold run. unfold_m.
  destruct (job_func (heap w r)) as [a|]; cbn; [|apply touches_only_refl].
  destruct (outcome a _); cbn; [split; reflexivity|].
  eapply touches_only_trans; [|apply schedule_touches_only].
  split; cbn [heap fresh jobs]; rewrite ?update_same; try reflexivity.
  intros r' Hr'. apply update_other. exact Hr'.
Qed.

Lemma touches_only_job_func r w w' r' :
  touches_only r w w' -> job_func (heap w' r') = job_func (heap w r').
Proof.
  intros []. destruct (Nat.eq_dec r' r) as [->|Hne]; [assumption|].
  rewrite to_other0 by assumption. reflexivity.
Qed.

Lemma run_sleep_keeps_job_func clock outcome d x w r :
  job_func (heap (snd ((run clock outcome x ;;; sleep d) w)) r)
  = job_func (heap w r).
Proof.
  pose proof (run_touches_only clock outcome x w) as Ht.
  unfold bind. destruct (run clock outcome x w) as [[[]|e] w1]; cbn [snd] in *.
  - unfold sleep. destruct (orb _ _); [|destruct (d <? 0)]; cbn [snd heap];
      eapply touches_only_job_func; eassumption.
  - eapply touches_only_job_func; eassumption.
Qed.

Lemma run_all_unbound clock outcome d r l : forall w,
  In r l -> job_func (heap w r) = None ->
  is_ok (fst (for_each l (fun job => run clock outcome job ;;; sleep d) w))
  = false.
Proof.
  induction l as [|x l IH]; intros w Hin Hf; [destruct Hin|].
  cbn [for_each].
  destruct (Nat.eq_dec x r) as [->|Hne].
  - erewrite bind_raise; [reflexivity|].
    erewrite bind_raise; [reflexivity|]. apply run_unbound. exact Hf.
  - destruct Hin as [E|Hin]; [contradiction|].
    pose proof (run_sleep_keeps_job_func clock outcome d x w r) as Hk.
    unfold bind at 1.
    destruct ((run clock outcome x ;;; sleep d) w) as [[[]|e] w1];
      cbn [snd] in Hk; [|reflexivity].
    apply IH; [exact Hin|congruence].
Qed.

Lemma select_unscheduled clock r l : forall w,
  In r l -> next_run (heap w r) = None ->
  fst (select (should_run clock) l w) = Raise TypeError.
Proof.
  induction l as [|x l IH]; intros w Hin Hn; [destruct Hin|].
  cbn [select].
  destruct (next_run (heap w x)) as [n|] eqn:Hx.
  - erewrite bind_ok by (apply should_run_some; exact Hx).
    destruct Hin as [->|Hin]; [congruence|].
    specialize (IH (mkWorld (heap w) (fresh w) (jobs w) (S (ticks w)) (trace w))
                   Hin Hn).
    unfold bind.
    destruct (select _ _ _) as [[rest|e] w1]; cbn [fst] in *; congruence.
  - erewrite bind_raise by (apply should_run_none; exact Hx). reflexivity.
Qed.

Lemma select_trace clock l : forall w,
  trace (snd (select (should_run clock) l w)) = trace w.
Proof.
  induction l as [|x l IH]; intros w; cbn [select]; [reflexivity|].
  unfold bind at 1. unfold should_run at 1. unfold_m.
  destruct (next_run (heap w x)); cbn [snd trace]; [|reflexivity].
  specialize (IH (mkWorld (heap w) (fresh w) (jobs w) (S (ticks w)) (trace w))).
  unfold bind.
  destruct (select _ _ _) as [[rest|e] w1]; cbn [snd trace] in *; exact IH.
Qed.

(** C10.  A job made by [every()] on which [do()] has not been called,
    whatever cadence and anchor calls were made on it, has no bound
    action and no [next_run]: [run()] and the due predicate both fail
    with a [TypeError].  The job is in the collection, so
    [run_pending()] fails with that error before it runs anything, and
    [run_all()] fails as well. *)
Theorem unconfigured_job_cannot_run clock outcome w n cs d :
  let r := fresh w in
  let w' := configure cs r (snd (Scheduler.every n w)) in
  job_func (heap w' r) = None /\
  next_run (heap w' r) = None /\
  In r (jobs w') /\
  run clock outcome r w' = (Raise TypeError, w') /\
  fst (should_run clock r w') = Raise TypeError /\
  fst (Scheduler.run_pending clock outcome w') = Raise TypeError /\
  trace (snd (Scheduler.run_pending clock outcome w')) = trace w' /\
  is_ok (fst (Scheduler.run_all clock outcome d w')) = false.
Proof.
  intros r w'.
  destruct (configure_keeps cs r (snd (Scheduler.every n w))) as (Hj & Hh).
  destruct (Hh r) as (Hf & Hn). fold w' in Hj, Hf, Hn.
  cbn [Scheduler.every snd heap jobs] in Hj, Hf, Hn.
  unfold r in Hf, Hn at 2. rewrite update_same in Hf, Hn. cbn in Hf, Hn.
  assert (Hin : In r (jobs w')).
  { rewrite Hj. apply in_or_app. right. left. reflexivity. }
  split; [exact Hf|]. split; [exact Hn|]. split; [exact Hin|].
  split; [apply run_unbound; exact Hf|].
  split; [rewrite should_run_none by exact Hn; reflexivity|].
  assert (Hs := select_unscheduled clock r (jobs w') w' Hin Hn).
  split; [|split].
  - unfold Scheduler.run_pending. erewrite bind_ok by reflexivity.
    unfold bind. destruct (select _ _ _) as [[l|e] w1]; cbn [fst] in *; congruence.
  - unfold Scheduler.run_pending. erewrite bind_ok by reflexivity.
    pose proof (select_trace clock (jobs w') w') as Ht.
    unfold bind. destruct (select _ _ _) as [[l|e] w1]; cbn [fst snd] in *;
      [congruence|exact Ht].
  - unfold Scheduler.run_all. erewrite bind_ok by reflexivity.
    apply run_all_unbound with (r := r); assumption.
Qed.

(** A job made by [every(2)], given a cadence and an anchor but no
    action: the singular selector is refused, the anchor is stored,
    and the job can neither be checked nor run. *)
Example unconfigured_sample :
  let w :=
    configure [Cday; Cdays; Cat "10:30"] O (snd (Scheduler.every 2 empty_world)) in
  unit (heap w O) = Some Days /\
  at_time (heap w O) = Some (DT.mktime 10 30 0 0) /\
  fst (config_step Cday O (snd (Scheduler.every 2 empty_world)))
  = Raise AssertionError /\
  fst (should_run (ticking 0) O w) = Raise TypeError /\
  fst (run (ticking 0) always_returns O w) = Raise TypeError /\
  fst (Scheduler.run_pending (ticking 0) always_returns w) = Raise TypeError /\
  fst (Scheduler.run_all (ticking 0) always_returns 0 w) = Raise TypeError.
Proof. repeat split; vm_compute; reflexivity. Qed.

(** ** A job that has just been configured *)

(** A job configured by [every(1).seconds.do(f)] has its [next_run]
    one second after the clock reading of the configuration, and is
    not due at a reading taken within that second. *)
Theorem one_second_job_not_due_at_once clock f w
  (Hv : DT.valid (clock (ticks w) + DT.us_per_second) = true)
  (Hsoon : clock (S (ticks w)) < clock (ticks w) + DT.us_per_second) :
  let res := one_second_job clock f w in
  fst res = Ok (fresh w) /\
  next_run (heap (snd res) (fresh w))
  = Some (clock (ticks w) + DT.us_per_second) /\
  fst (should_run clock (fresh w) (snd res)) = Ok false.
Proof.
  intros res. subst res. unfold one_second_job.
  erewrite bind_ok by reflexivity.
  erewrite bind_ok by reflexivity.
  rewrite do_unfold. cbn [heap fresh jobs ticks trace]. simpl_heap.
  erewrite (schedule_completes clock (fresh w) _ Seconds).
  - cbn [fst snd]. split; [reflexivity|].
    assert (E : next_run (heap (scheduled clock (fresh w) Seconds
                 (mkWorld
                    (update (heap w) (fresh w)
                       (set_job_func (Some f)
                          (set_unit (Some Seconds) (Scheduler.new_job 1))))
                    (S (fresh w)) (jobs w ++ [fresh w]) (ticks w) (trace w)))
                 (fresh w))
               = Some (clock (ticks w) + DT.us_per_second)).
    { rewrite next_run_scheduled. cbn [heap ticks]. rewrite update_same.
      unfold due_time. cbn. reflexivity. }
    split; [exact E|].
    erewrite should_run_some by exact E. cbn [fst ticks scheduled heap].
    rewrite update_same. cbn [readings at_time set_job_func set_unit
                                Scheduler.new_job Nat.add].
    f_equal. apply Z.leb_gt. exact Hsoon.
  - cbn. rewrite update_same. reflexivity.
  - cbn. rewrite update_same. intros H. now elim H.
  - cbn. rewrite update_same. reflexivity.
  - cbn [heap ticks]. rewrite update_same. exact Hv.
  - cbn [heap ticks]. rewrite update_same. unfold due_time. cbn. exact Hv.
Qed.

Lemma one_second_job_not_due_at_once_witness :
  let clock := fun k => instant 738000 9 0 0 + Z.of_nat k * 1000 in
  let res := one_second_job clock 7%nat empty_world in
  fst res = Ok O /\
  next_run (heap (snd res) O) = Some (instant 738000 9 0 1) /\
  fst (should_run clock O (snd res)) = Ok false.
Proof.
  apply (one_second_job_not_due_at_once
           (fun k => instant 738000 9 0 0 + Z.of_nat k * 1000)
           7%nat empty_world); vm_compute; reflexivity.
Defined.

(* ================================================================== *)
(** * Further properties of the scheduler *)

(** ** What a pass leaves alone *)

Lemma same_config_refl w : same_config w w.
Proof. split; auto. Qed.

Lemma same_config_trans w1 w2 w3 :
  same_config w1 w2 -> same_config w2 w3 -> same_config w1 w3.
Proof. intros [] []; split; intros; congruence. Qed.

Lemma touches_only_same_config r w w' :
  touches_only r w w' -> same_config w w'.
Proof.
  intros []. split; try assumption; intros x;
    (destruct (Nat.eq_dec x r) as [->|Hne];
     [assumption | rewrite to_other0 by assumption; reflexivity]).
Qed.

Lemma select_world clock l : forall w,
  exists k, snd (select (should_run clock) l w)
            = mkWorld (heap w) (fresh w) (jobs w) k (trace w).
Proof.
  induction l as [|x l IH]; intros w; cbn [select].
  - exists (ticks w). destruct w; reflexivity.
  - unfold bind at 1. unfold should_run at 1. unfold_m.
    destruct (next_run (heap w x)); cbn [snd]; [|eauto].
    destruct (IH (mkWorld (heap w) (fresh w) (jobs w) (S (ticks w)) (trace w)))
      as (k & Hk).
    exists k. unfold bind.
    destruct (select _ _ _) as [[rest|e] w1]; cbn [snd] in *; exact Hk.
Qed.

Lemma job_lt_world a b w : snd (job_lt a b w) = w.
Proof. unfold job_lt. unfold_m. repeat step; reflexivity. Qed.

Lemma insert_world x l : forall w, snd (Scheduler.insert x l w) = w.
Proof.
  induction l as [|y l IH]; intros w; cbn [Scheduler.insert]; [reflexivity|].
  unfold bind at 1. pose proof (job_lt_world y x w) as H.
  destruct (job_lt y x w) as [[[]|e] w1]; cbn [snd] in *; subst; try reflexivity.
  unfold bind. specialize (IH w).
  destruct (Scheduler.insert x l w) as [[rest|e] w1]; cbn [snd] in *; exact IH.
Qed.

Lemma sorted_world l : forall w, snd (Scheduler.sorted l w) = w.
Proof.
  induction l as [|x l IH]; intros w; cbn [Scheduler.sorted]; [reflexivity|].
  unfold bind. specialize (IH w).
  destruct (Scheduler.sorted l w) as [[s|e] w1]; cbn [snd] in *; subst;
    [apply insert_world|reflexivity].
Qed.

Lemma for_each_same_config (body : ref -> M Datatypes.unit) l :
  (forall r w, same_config w (snd (body r w))) ->
  forall w, same_config w (snd (for_each l body w)).
Proof.
  intros Hb. induction l as [|x l IH]; intros w; cbn [for_each].
  - apply same_config_refl.
  - unfold bind. specialize (Hb x w).
    destruct (body x w) as [[[]|e] w1]; cbn [snd] in *; [|exact Hb].
    eapply same_config_trans; [exact Hb|apply IH].
Qed.

Lemma run_same_config clock outcome r w :
  same_config w (snd (run clock outcome r w)).
Proof. eapply touches_only_same_config, run_touches_only. Qed.

Lemma run_sleep_same_config clock outcome d r w :
  same_config w (snd ((run clock outcome r ;;; sleep d) w)).
Proof.
  pose proof (run_same_config clock outcome r w) as H.
  unfold bind. destruct (run clock outcome r w) as [[[]|e] w1];
    cbn [snd] in *; [|exact H].
  unfold sleep. destruct (orb _ _); [exact H|].
  destruct (d <? 0); cbn [snd]; [exact H|].
  destruct H. split; assumption.
Qed.

(** With actions that return or raise and do not themselves reach
    into the scheduler, which are the actions of this development:
    whatever the state of the jobs, whatever the delay, which actions
    return and which raise, and whether the pass returns or raises,
    [run_pending()] and [run_all()] leave the collection as it is, and
    with it the interval, the action, the unit and the anchor of every
    job: the code of a pass writes [last_run], [next_run] and [period]
    only. *)
Theorem passes_keep_configuration clock outcome d w :
  same_config w (snd (Scheduler.run_pending clock outcome w)) /\
  same_config w (snd (Scheduler.run_all clock outcome d w)).
Proof.
  split.
  - unfold Scheduler.run_pending. erewrite bind_ok by reflexivity.
    unfold bind at 1.
    destruct (select_world clock (jobs w) w) as (k & Hk).
    destruct (select (should_run clock) (jobs w) w) as [[l|e] w1];
      cbn [snd] in Hk; subst w1; [|split; reflexivity].
    unfold bind.
    pose proof (sorted_world l (mkWorld (heap w) (fresh w) (jobs w) k (trace w)))
      as Hs.
    destruct (Scheduler.sorted l _) as [[s|e] w2]; cbn [snd] in Hs; subst w2;
      [|split; reflexivity].
    eapply same_config_trans; [|apply for_each_same_config].
    + split; reflexivity.
    + intros r v. apply run_same_config.
  - unfold Scheduler.run_all. erewrite bind_ok by reflexivity.
    apply for_each_same_config. intros r v. apply run_sleep_same_config.
Qed.

(** ** A pass ends at the first action that raises *)

Lemma run_raises clock outcome r w a e :
  job_func (heap w r) = Some a ->
  outcome a (List.length (trace w)) = Some e ->
  run clock outcome r w =
  (Raise e,
   mkWorld (heap w) (fresh w) (jobs w) (ticks w) (trace w ++ [Invoke r a])).
Proof.
  intros Hf He. unfold run. unfold_m. rewrite Hf. cbn. rewrite He. reflexivity.
Qed.

Lemma for_each_app {A} (l1 l2 : list A) (body : A -> M Datatypes.unit) w :
  for_each (l1 ++ l2) body w
  = bind (for_each l1 body) (fun _ => for_each l2 body) w.
Proof.
  revert w. induction l1 as [|x l1 IH]; intros w; cbn [for_each app].
  - reflexivity.
  - unfold bind. destruct (body x w) as [[[]|e] w1]; [|reflexivity].
    rewrite IH. reflexivity.
Qed.

Lemma ran_all_trace_length clock post l w :
  List.length (trace (ran_all clock post l w))
  = (List.length (trace w) + List.length l * S (List.length post))%nat.
Proof.
  revert w. induction l as [|x l IH]; intros w; cbn [ran_all].
  - cbn. lia.
  - rewrite IH. unfold ran. cbn [trace]. rewrite length_app. cbn. lia.
Qed.

Lemma ran_all_job_func clock post l : forall w r,
  job_func (heap (ran_all clock post l w) r) = job_func (heap w r).
Proof.
  induction l as [|x l IH]; intros w r; cbn [ran_all]; [reflexivity|].
  rewrite IH. apply ran_config.
Qed.

(** The jobs of [pre] run to the end, the action of [r] raises: the
    loop ends there. *)
Lemma for_each_stops clock outcome post (body : ref -> M Datatypes.unit)
      pre r rest a e w :
  (forall x v, ready clock outcome (heap v x) ->
               body x v = (Ok tt, ran clock post x v)) ->
  (forall v, job_func (heap v r) = Some a ->
             outcome a (List.length (trace v)) = Some e ->
             body r v = (Raise e,
                         mkWorld (heap v) (fresh v) (jobs v) (ticks v)
                                 (trace v ++ [Invoke r a]))) ->
  Forall (fun x => ready clock outcome (heap w x)) pre ->
  job_func (heap w r) = Some a ->
  outcome a (List.length (trace w)
             + List.length pre * S (List.length post))%nat = Some e ->
  for_each (pre ++ r :: rest) body w =
  (Raise e,
   let v := ran_all clock post pre w in
   mkWorld (heap v) (fresh v) (jobs v) (ticks v) (trace v ++ [Invoke r a])).
Proof.
  intros Hok Hfail Hpre Hf He.
  rewrite for_each_app.
  erewrite bind_ok by (apply (for_each_ran clock outcome post); assumption).
  cbn [for_each]. apply bind_raise. apply Hfail.
  - rewrite ran_all_job_func. exact Hf.
  - rewrite ran_all_trace_length. exact He.
Qed.

(** When the action of a due job raises, [run_pending()] ends with
    that error.  The due jobs ordered before it have run; the job
    itself and every job ordered after it are left exactly as they
    were, so they are still due at the next pass. *)
Theorem run_pending_stops_at_failure clock outcome w pre r post a e
  (Hnext : Forall (has_next_run w) (jobs w))
  (Horder : by_next_run (heap w) (due_from clock (heap w) (ticks w) (jobs w))
            = pre ++ r :: post)
  (Hpre : Forall (fun x => ready clock outcome (heap w x)) pre)
  (Hf : job_func (heap w r) = Some a)
  (He : outcome a (List.length (trace w) + List.length pre)%nat = Some e) :
  let res := Scheduler.run_pending clock outcome w in
  fst res = Raise e /\
  trace (snd res)
  = trace w ++ map (fun x => Invoke x (the_action (heap w x))) pre
    ++ [Invoke r a] /\
  (forall x, ~ In x pre -> heap (snd res) x = heap w x).
Proof.
  intros res. subst res. unfold Scheduler.run_pending.
  erewrite bind_ok by reflexivity.
  erewrite bind_ok by (apply select_due; exact Hnext).
  erewrite bind_ok.
  2:{ apply sorted_by_next_run. cbn [heap].
      apply Forall_forall. intros x Hx.
      apply in_due_from in Hx. destruct Hx as (i & Hi & _).
      rewrite Forall_forall in Hnext. apply Hnext.
      eapply nth_error_In; eassumption. }
  cbn [heap]. rewrite Horder.
  erewrite (for_each_stops clock outcome [] (run clock outcome) pre r post a e).
  - cbn [fst snd trace heap]. split; [reflexivity|]. split.
    + rewrite ran_all_trace. cbn [trace heap]. rewrite runs_of_nil.
      rewrite <- app_assoc. reflexivity.
    + intros x Hx. rewrite ran_all_other by exact Hx. reflexivity.
  - intros x v. apply run_of_ready.
  - intros v. apply run_raises.
  - exact Hpre.
  - exact Hf.
  - cbn [trace List.length]. rewrite Nat.mul_1_r. exact He.
Qed.

(** When the action of a job raises, [run_all()], with a delay that
    [time.sleep] takes, which is one from nothing to [max_sleep], ends
    with that error: the jobs before it in the collection have run,
    each followed by its sleep; the job itself and the jobs after it
    are left as they were, and no sleep follows the failed call. *)
Theorem run_all_stops_at_failure clock outcome w d pre r post a e
  (Hd : 0 <= d <= max_sleep)
  (Hjobs : jobs w = pre ++ r :: post)
  (Hpre : Forall (fun x => ready clock outcome (heap w x)) pre)
  (Hf : job_func (heap w r) = Some a)
  (He : outcome a (List.length (trace w) + 2 * List.length pre)%nat = Some e) :
  let res := Scheduler.run_all clock outcome d w in
  fst res = Raise e /\
  trace (snd res)
  = trace w
    ++ flat_map (fun x => [Invoke x (the_action (heap w x)); Sleep d]) pre
    ++ [Invoke r a] /\
  (forall x, ~ In x pre -> heap (snd res) x = heap w x).
Proof.
  intros res. subst res. unfold Scheduler.run_all.
  erewrite bind_ok by reflexivity. rewrite Hjobs.
  erewrite (for_each_stops clock outcome [Sleep d] _ pre r post a e).
  - cbn [fst snd trace heap]. split; [reflexivity|]. split.
    + rewrite ran_all_trace. rewrite <- app_assoc. reflexivity.
    + intros x Hx. rewrite ran_all_other by exact Hx. reflexivity.
  - intros x v. apply run_then_sleep. exact Hd.
  - intros v Hv Ho. apply bind_raise. apply run_raises; assumption.
  - exact Hpre.
  - exact Hf.
  - cbn [List.length]. rewrite Nat.mul_comm. exact He.
Qed.

Lemma run_pending_stops_at_failure_witness :
  let outcome := raising_only 1%nat (ActionError 9) in
  let res := Scheduler.run_pending sample_clock outcome sample_world in
  fst res = Raise (ActionError 9) /\
  trace (snd res)
  = trace sample_world
    ++ map (fun x => Invoke x (the_action (heap sample_world x))) [1%nat]
    ++ [Invoke 0%nat 1%nat] /\
  (forall x, ~ In x [1%nat] -> heap (snd res) x = heap sample_world x).
Proof.
  apply (run_pending_stops_at_failure sample_clock
           (raising_only 1%nat (ActionError 9)) sample_world
           [1%nat] 0%nat [] 1%nat (ActionError 9)).
  - exact sample_world_has_next_run.
  - vm_compute. reflexivity.
  - constructor; [|constructor].
    apply (ready_unanchored _ _ _ 2%nat Seconds);
      [ reflexivity | reflexivity | reflexivity | reflexivity
      | intros k; apply sample_clock_valid; vm_compute; split; discriminate
      | reflexivity ].
  - reflexivity.
  - reflexivity.
Defined.

Lemma run_all_stops_at_failure_witness :
  let outcome := raising_only 2%nat (ActionError 9) in
  let res := Scheduler.run_all sample_clock outcome 100000 sample_world in
  fst res = Raise (ActionError 9) /\
  trace (snd res)
  = trace sample_world
    ++ flat_map (fun x => [Invoke x (the_action (heap sample_world x));
                           Sleep 100000]) [0%nat]
    ++ [Invoke 1%nat 2%nat] /\
  (forall x, ~ In x [0%nat] -> heap (snd res) x = heap sample_world x).
Proof.
  apply (run_all_stops_at_failure sample_clock
           (raising_only 2%nat (ActionError 9)) sample_world 100000
           [0%nat] 1%nat [2%nat] 2%nat (ActionError 9)).
  - split; vm_compute; discriminate.
  - reflexivity.
  - constructor; [|constructor].
    apply (ready_unanchored _ _ _ 1%nat Seconds);
      [ reflexivity | reflexivity | reflexivity | reflexivity
      | intros k; apply sample_clock_valid; vm_compute; split; discriminate
      | reflexivity ].
  - reflexivity.
  - reflexivity.
Defined.

(** ** Where a run leaves the schedule *)

Lemma split_day_tod d x :
  0 <= x < DT.us_per_day ->
  DT.day_of (d * DT.us_per_day + x) = d /\
  DT.tod_of (d * DT.us_per_day + x) = x.
Proof.
  intros Hx. unfold DT.day_of, DT.tod_of.
  change DT.us_per_day with 86400000000 in *.
  Z.div_mod_to_equations. lia.
Qed.

Lemma ran_next_run clock r w :
  next_run (heap (ran clock [] r w) r)
  = Some (next_due (heap w r) (the_unit (heap w r)) (clock (S (ticks w)))) /\
  last_run (heap (ran clock [] r w) r) = Some (clock (ticks w)).
Proof. unfold ran. cbn [heap]. rewrite update_same. split; reflexivity. Qed.

(** After a run that completed, of a job with a positive interval, the
    new [next_run] is strictly later than the clock reading it was
    computed from, anchored or not: the job is not due at that
    reading, nor at any earlier one. *)
Theorem run_leaves_job_not_due clock outcome r w
  (Hready : ready clock outcome (heap w r))
  (Hi : 0 < interval (heap w r))
  (Hat : forall a, at_time (heap w r) = Some a -> DT.time_ok a) :
  let res := run clock outcome r w in
  exists n,
    fst res = Ok tt /\
    last_run (heap (snd res) r) = Some (clock (ticks w)) /\
    next_run (heap (snd res) r) = Some n /\
    clock (S (ticks w)) < n /\
    forall k, clock k <= clock (S (ticks w)) ->
              fst (should_run clock r
                     (mkWorld (heap (snd res)) (fresh w) (jobs w) k
                              (trace (snd res))))
              = Ok false.
Proof.
  intros res. subst res. rewrite run_of_ready by exact Hready. cbn [fst snd].
  destruct (ran_next_run clock r w) as [Hn Hl].
  destruct Hready as (a & u & Hf & Hu & Hd & _).
  rewrite (the_unit_some _ _ Hu) in Hn.
  assert (Hlt : clock (S (ticks w))
                < next_due (heap w r) u (clock (S (ticks w)))).
  { unfold next_due. destruct (at_time (heap w r)) as [t|] eqn:Ht.
    - assert (u = Days) by (apply Hd; discriminate). subst u.
      pose proof (DTFacts.time_us_range _
                    (DTFacts.whole_second_ok t (Hat t eq_refl))) as Hr.
      pose proof (DTFacts.day_tod (clock (S (ticks w)))) as Hc.
      pose proof (DTFacts.tod_range (clock (S (ticks w)))) as Hto.
      change (unit_us Days) with DT.us_per_day. rewrite replace_after_days.
      change DT.us_per_day with 86400000000 in *. lia.
    - pose proof (unit_us_pos u). nia. }
  eexists. split; [reflexivity|]. split; [exact Hl|]. split; [exact Hn|].
  split; [exact Hlt|].
  intros k Hk. erewrite should_run_some by (cbn [heap]; exact Hn).
  cbn [fst ticks]. f_equal. apply Z.leb_gt. lia.
Qed.

(** After a run that completed, an anchored job is scheduled on the
    anchor's hour, minute and second, with no microseconds, of the day
    that lies [interval] days after the day of the reading. *)
Theorem anchored_run_lands_on_anchor clock outcome r w a
  (Hready : ready clock outcome (heap w r))
  (Ha : at_time (heap w r) = Some a)
  (Hok : DT.time_ok a) :
  let res := run clock outcome r w in
  exists n,
    fst res = Ok tt /\
    next_run (heap (snd res) r) = Some n /\
    DT.day_of n = DT.day_of (clock (S (ticks w))) + interval (heap w r) /\
    DT.time_of n = DT.whole_second a.
Proof.
  intros res. subst res. rewrite run_of_ready by exact Hready. cbn [fst snd].
  destruct (ran_next_run clock r w) as [Hn _].
  destruct Hready as (f & u & Hf & Hu & Hd & _).
  rewrite (the_unit_some _ _ Hu) in Hn.
  assert (u = Days) by (apply Hd; congruence). subst u.
  unfold next_due in Hn. rewrite Ha in Hn.
  change (unit_us Days) with DT.us_per_day in Hn.
  rewrite replace_after_days in Hn.
  pose proof (DTFacts.time_us_range _ (DTFacts.whole_second_ok a Hok)) as Hr.
  destruct (split_day_tod (DT.day_of (clock (S (ticks w))) + interval (heap w r))
              _ Hr) as [Hday Htod].
  eexists. split; [reflexivity|]. split; [exact Hn|]. split; [exact Hday|].
  unfold DT.time_of. rewrite Htod.
  destruct Hok as (Hh & Hm & Hs & _).
  unfold DT.whole_second, DT.time_us.
  cbn [DT.hour DT.minute DT.second DT.microsecond].
  unfold DT.us_per_hour, DT.us_per_minute, DT.us_per_second.
  f_equal; Z.div_mod_to_equations; lia.
Qed.

Lemma ready_days clock outcome j a :
  job_func j = Some a -> unit j = Some Days ->
  timedelta_of Days (interval j) = Ok (interval j * unit_us Days) ->
  (forall k, DT.valid (clock k + interval j * unit_us Days) = true) ->
  (forall n, outcome a n = None) ->
  ready clock outcome j.
Proof. intros Hf Hu Htd Hv Ho. exists a, Days. repeat split; auto. Qed.

Lemma sample_job_ready :
  ready sample_clock always_returns (heap sample_world O).
Proof. sample_ready 1%nat Seconds. Qed.

Lemma daily_job_ready :
  ready sample_clock always_returns
        (heap (snd (daily_at sample_clock "10:30" 7%nat empty_world)) O).
Proof.
  apply (ready_days _ _ _ 7%nat);
    [ reflexivity | reflexivity | reflexivity
    | intros k; apply sample_clock_valid; vm_compute; split; discriminate
    | reflexivity ].
Qed.

Lemma run_leaves_job_not_due_witness :
  let res := run sample_clock always_returns O sample_world in
  exists n,
    fst res = Ok tt /\
    last_run (heap (snd res) O) = Some (sample_clock (ticks sample_world)) /\
    next_run (heap (snd res) O) = Some n /\
    sample_clock (S (ticks sample_world)) < n /\
    forall k, sample_clock k <= sample_clock (S (ticks sample_world)) ->
              fst (should_run sample_clock O
                     (mkWorld (heap (snd res)) (fresh sample_world)
                              (jobs sample_world) k (trace (snd res))))
              = Ok false.
Proof.
  refine (run_leaves_job_not_due sample_clock always_returns O sample_world
            sample_job_ready _ _).
  - vm_compute. reflexivity.
  - intros a H. vm_compute in H. discriminate H.
Defined.

Lemma anchored_run_lands_on_anchor_witness :
  let w := snd (daily_at sample_clock "10:30" 7%nat empty_world) in
  let res := run sample_clock always_returns O w in
  exists n,
    fst res = Ok tt /\
    next_run (heap (snd res) O) = Some n /\
    DT.day_of n = DT.day_of (sample_clock (S (ticks w))) + interval (heap w O) /\
    DT.time_of n = DT.whole_second (DT.mktime 10 30 0 0).
Proof.
  refine (anchored_run_lands_on_anchor sample_clock always_returns O
            (snd (daily_at sample_clock "10:30" 7%nat empty_world))
            (DT.mktime 10 30 0 0) daily_job_ready _ _).
  - vm_compute. reflexivity.
  - unfold DT.time_ok. cbn. lia.
Defined.

(** ** Configurations that fail half way *)

(** [every(n).do(f)], with no cadence chosen, raises an assertion
    error; by then the job is in the collection and has its action,
    but no [next_run], and [run_pending()] fails on that scheduler
    with a [TypeError]. *)
Theorem do_without_unit_leaves_job_unscheduled clock outcome n f w :
  let res := (r <- Scheduler.every n ;; do_ clock r f) w in
  fst res = Raise AssertionError /\
  In (fresh w) (jobs (snd res)) /\
  job_func (heap (snd res) (fresh w)) = Some f /\
  next_run (heap (snd res) (fresh w)) = None /\
  fst (Scheduler.run_pending clock outcome (snd res)) = Raise TypeError.
Proof.
  intros res. subst res.
  erewrite bind_ok by reflexivity. rewrite do_unfold.
  cbn [heap fresh jobs ticks trace]. rewrite update_same.
  unfold _schedule_next_run. unfold_m. rewrite update_same.
  cbn [unit set_job_func Scheduler.new_job fst snd heap jobs].
  rewrite update_same. cbn [job_func next_run set_job_func Scheduler.new_job].
  assert (Hin : In (fresh w) (jobs w ++ [fresh w])).
  { apply in_or_app. right. left. reflexivity. }
  repeat split; try assumption.
  unfold Scheduler.run_pending. erewrite bind_ok by reflexivity.
  cbn [jobs].
  match goal with
  | |- fst (bind _ _ ?v) = _ =>
    pose proof (select_unscheduled clock (fresh w) (jobs w ++ [fresh w]) v Hin)
      as Hs
  end.
  cbn [heap] in Hs. rewrite update_same in Hs. specialize (Hs eq_refl).
  unfold bind.
  destruct (select _ _ _) as [[l|e] w1]; cbn [fst] in *; congruence.
Qed.

(** A job that carries an anchor and a unit other than days (the unit
    was changed after [at]) runs each time it is due: the action is
    called, [last_run] and [next_run] are written, the latter one
    period after the reading, without the anchor; and then the run
    raises an assertion error. *)
Theorem anchored_non_days_job_runs_then_raises clock outcome r w a u t
  (Hf : job_func (heap w r) = Some a)
  (Ho : outcome a (List.length (trace w)) = None)
  (Hu : unit (heap w r) = Some u)
  (Hnd : unit_name_eqb u Days = false)
  (Ht : at_time (heap w r) = Some t)
  (Htd : timedelta_of u (interval (heap w r))
         = Ok (interval (heap w r) * unit_us u))
  (Hv : DT.valid (clock (S (ticks w)) + interval (heap w r) * unit_us u) = true) :
  let res := run clock outcome r w in
  fst res = Raise AssertionError /\
  trace (snd res) = trace w ++ [Invoke r a] /\
  last_run (heap (snd res) r) = Some (clock (ticks w)) /\
  next_run (heap (snd res) r)
  = Some (clock (S (ticks w)) + interval (heap w r) * unit_us u).
Proof.
  intros res. subst res.
  unfold run, _schedule_next_run. unfold_m.
  rewrite Hf. cbn. rewrite Ho. cbn.
  rewrite !update_same. cbn. rewrite Hu, Htd. cbn.
  unfold DT.add. rewrite Hv. cbn. rewrite Ht. cbn. rewrite Hnd. cbn.
  rewrite !update_same. cbn. auto.
Qed.

Lemma anchored_non_days_job_runs_then_raises_witness :
  let clock := ticking (instant 738000 9 0 0) in
  let w := snd (anchored_seconds_job clock 7%nat empty_world) in
  let res := run clock always_returns O w in
  fst (anchored_seconds_job clock 7%nat empty_world) = Raise AssertionError /\
  fst res = Raise AssertionError /\
  trace (snd res) = trace w ++ [Invoke O 7%nat] /\
  last_run (heap (snd res) O) = Some (clock (ticks w)) /\
  next_run (heap (snd res) O)
  = Some (clock (S (ticks w)) + interval (heap w O) * unit_us Seconds).
Proof.
  split; [vm_compute; reflexivity|].
  refine (anchored_non_days_job_runs_then_raises
            (ticking (instant 738000 9 0 0)) always_returns O
            (snd (anchored_seconds_job (ticking (instant 738000 9 0 0))
                    7%nat empty_world))
            7%nat Seconds (DT.mktime 10 30 0 0) _ _ _ _ _ _ _);
    vm_compute; reflexivity.
Defined.

(** ** [idle_seconds] and the due predicate *)

Lemma scaled_quotient_pos n b e :
  0 < n -> 0 < b -> e <= Z.log2 n - Z.log2 b - 52 ->
  0 < b * 2 ^ Z.max 0 e <= n * 2 ^ Z.max 0 (- e).
Proof.
  intros Hn Hb He.
  destruct (Z.log2_spec n Hn) as [Hn1 Hn2].
  destruct (Z.log2_spec b Hb) as [Hb1 Hb2].
  pose proof (Z.log2_nonneg n) as Ln. pose proof (Z.log2_nonneg b) as Lb.
  destruct (Z.le_gt_cases 0 e) as [Hp|Hp].
  - rewrite (Z.max_r 0 e), (Z.max_l 0 (- e)) by lia.
    change (2 ^ 0) with 1. rewrite Z.mul_1_r.
    assert (0 < 2 ^ e) by (apply Z.pow_pos_nonneg; lia).
    split; [nia|].
    assert (2 ^ Z.succ (Z.log2 b) * 2 ^ e <= 2 ^ Z.log2 n).
    { rewrite <- Z.pow_add_r by lia. apply Z.pow_le_mono_r; lia. }
    nia.
  - rewrite (Z.max_l 0 e), (Z.max_r 0 (- e)) by lia.
    change (2 ^ 0) with 1. rewrite Z.mul_1_r. split; [lia|].
    assert (2 ^ Z.succ (Z.log2 b) <= 2 ^ Z.log2 n * 2 ^ (- e)).
    { rewrite <- Z.pow_add_r by lia. apply Z.pow_le_mono_r; lia. }
    assert (0 < 2 ^ (- e)) by (apply Z.pow_pos_nonneg; lia).
    nia.
Qed.

(** The sign of a quotient survives the rounding. *)
Lemma true_divide_sign a b :
  0 < b -> Z.sgn (mant (true_divide a b)) = Z.sgn a.
Proof.
  intros Hb. unfold true_divide.
  destruct (Z.eqb_spec a 0) as [->|Ha]; [reflexivity|].
  assert (Hn : 0 < Z.abs a) by lia.
  assert (He : quotient_exponent (Z.abs a) b
               <= Z.log2 (Z.abs a) - Z.log2 b - 52).
  { unfold quotient_exponent. destruct (2 ^ 53 <=? _); lia. }
  destruct (scaled_quotient_pos _ b _ Hn Hb He) as [Hd Hq].
  assert (Hm : 0 < round_half_even
                     (Z.abs a * 2 ^ Z.max 0 (- quotient_exponent (Z.abs a) b))
                     (b * 2 ^ Z.max 0 (quotient_exponent (Z.abs a) b))).
  { unfold round_half_even.
    match goal with
    | |- 0 < (if _ then ?q + 1 else ?q) =>
      assert (1 <= q) by (apply Z.div_le_lower_bound; lia)
    end.
    destruct (orb _ _); lia. }
  cbv zeta. destruct (_ =? 2 ^ 53); cbn [mant].
  - rewrite Z.sgn_mul, Z.sgn_sgn. change (Z.sgn (2 ^ 52)) with 1. lia.
  - rewrite Z.sgn_mul, Z.sgn_sgn, (Z.sgn_pos _ Hm). lia.
Qed.

Lemma total_seconds_sign p : Z.sgn (mant (DT.total_seconds p)) = Z.sgn p.
Proof. apply true_divide_sign. reflexivity. Qed.

(** On a collection that is not empty, of jobs that have a [next_run],
    [idle_seconds] returns a float that is zero or negative exactly
    when some job is due at the clock reading, and negative exactly
    when the [next_run] of some job lies before it: the rounding of
    the seconds keeps the sign. *)
Theorem idle_seconds_sign clock w
  (Hnext : Forall (has_next_run w) (jobs w))
  (Hne : jobs w <> []) :
  exists d,
    fst (Scheduler.idle_seconds clock w) = Ok d /\
    (float_nonpos d <->
     exists r, In r (jobs w) /\ due_at (heap w) r <= clock (ticks w)) /\
    (mant d < 0 <->
     exists r, In r (jobs w) /\ due_at (heap w) r < clock (ticks w)).
Proof.
  destruct (jobs w) as [|x l] eqn:Hj; [congruence|].
  inversion Hnext as [|? ? Hx Hl]; subst.
  destruct (min_from_least l x w Hx Hl) as (r & Hr & Hin & Hmin).
  assert (Hrn : has_next_run w r).
  { rewrite Forall_forall in Hl. destruct Hin as [<-|Hin]; auto. }
  unfold has_next_run in Hrn.
  destruct (next_run (heap w r)) as [n|] eqn:Hn; [|congruence].
  pose proof (due_at_some _ _ _ Hn) as Hd.
  pose proof (total_seconds_sign (n - clock (ticks w))) as Hs.
  exists (DT.total_seconds (n - clock (ticks w))). split; [|split].
  - assert (E : Scheduler.next_run w = (Ok (Some n), w)).
    { unfold Scheduler.next_run, Scheduler.get_jobs.
      unfold bind at 1. rewrite Hj. cbn [Scheduler.py_min].
      erewrite bind_ok by exact Hr.
      unfold bind, get, ret. rewrite Hn. reflexivity. }
    unfold Scheduler.idle_seconds. erewrite bind_ok by exact E.
    unfold_m. reflexivity.
  - unfold float_nonpos. split.
    + intros Hle. exists r. split; [exact Hin|]. lia.
    + intros (r' & Hr' & Hle). specialize (Hmin r' Hr'). lia.
  - split.
    + intros Hlt. exists r. split; [exact Hin|]. lia.
    + intros (r' & Hr' & Hlt). specialize (Hmin r' Hr'). lia.
Qed.

Lemma idle_seconds_sign_witness :
  exists d,
    fst (Scheduler.idle_seconds sample_clock sample_world) = Ok d /\
    (float_nonpos d <->
     exists r, In r (jobs sample_world) /\
               due_at (heap sample_world) r
               <= sample_clock (ticks sample_world)) /\
    (mant d < 0 <->
     exists r, In r (jobs sample_world) /\
               due_at (heap sample_world) r
               < sample_clock (ticks sample_world)).
Proof.
  refine (idle_seconds_sign sample_clock sample_world
            sample_world_has_next_run _).
  change (jobs sample_world) with [0; 1; 2]%nat. discriminate.
Defined.

(** Ten seconds late, and a span of microseconds that is not a float
    when counted in seconds. *)
Example idle_seconds_sample :
  fst (Scheduler.idle_seconds sample_clock sample_world)
  = Ok (mkfloat (- (5 * 2 ^ 50)) (- 49)) /\
  DT.total_seconds (- (10 * DT.us_per_second))
  = mkfloat (- (5 * 2 ^ 50)) (- 49) /\
  DT.total_seconds 17279999999999999 = DT.total_seconds 17280000000000000 /\
  DT.total_seconds 17280000000000000 = mkfloat 4529848320000000 (- 18).
Proof. repeat split; vm_compute; reflexivity. Qed.

(** ** Jobs with the same [next_run] *)

Lemma precedes_cons {A} (x y z : A) l : precedes x y l -> precedes x y (z :: l).
Proof. intros (l1 & l2 & -> & H). exists (z :: l1), l2. auto. Qed.

Lemma precedes_head {A} (x y : A) l : In y l -> precedes x y (x :: l).
Proof. intros H. exists [], l. auto. Qed.

Lemma precedes_inv {A} (x y z : A) l :
  precedes x y (z :: l) -> (x = z /\ In y l) \/ precedes x y l.
Proof.
  intros (l1 & l2 & E & H). destruct l1 as [|a l1]; cbn in E; inversion E; subst.
  - left. auto.
  - right. exists l1, l2. auto.
Qed.

Lemma place_keeps_precedes h z x y s :
  precedes x y s -> precedes x y (place h z s).
Proof.
  induction s as [|a s IH]; intros H.
  - destruct H as ([|? ?] & ? & E & _); discriminate E.
  - cbn [place]. destruct (due_at h a <? due_at h z).
    + apply precedes_inv in H. destruct H as [[-> Hy]|H].
      * apply precedes_head. apply in_place. auto.
      * apply precedes_cons. auto.
    + apply precedes_cons. exact H.
Qed.

Lemma place_before h z y s :
  In y s -> due_at h z <= due_at h y -> precedes z y (place h z s).
Proof.
  induction s as [|a s IH]; intros Hy Hle; [destruct Hy|].
  cbn [place]. destruct (Z.ltb_spec (due_at h a) (due_at h z)) as [Hlt|Hge].
  - destruct Hy as [->|Hy]; [lia|]. apply precedes_cons. auto.
  - apply precedes_head. exact Hy.
Qed.

(** The order of [run_pending] is stable: a job keeps its place before
    a later job of the collection whose [next_run] is not earlier. *)
Lemma by_next_run_stable h x y l :
  precedes x y l -> due_at h x <= due_at h y ->
  precedes x y (by_next_run h l).
Proof.
  induction l as [|a l IH]; intros H Hle.
  - destruct H as ([|? ?] & ? & E & _); discriminate E.
  - cbn [by_next_run]. apply precedes_inv in H. destruct H as [[-> Hy]|H].
    + apply place_before; [|exact Hle].
      eapply Permutation_in; [apply Permutation_sym, by_next_run_perm|exact Hy].
    + apply place_keeps_precedes. auto.
Qed.

Lemma due_from_precedes clock h l : forall k i j x y,
  nth_error l i = Some x -> nth_error l j = Some y -> (i < j)%nat ->
  due_at h x <= clock (i + k)%nat -> due_at h y <= clock (j + k)%nat ->
  precedes x y (due_from clock h k l).
Proof.
  induction l as [|a l IH]; intros k i j x y Hi Hj Hij Hx Hy.
  - destruct i; discriminate.
  - destruct j as [|j]; [lia|]. cbn in Hj.
    destruct i as [|i]; cbn in Hi.
    + inversion Hi. subst a. cbn [due_from].
      cbn in Hx. destruct (Z.leb_spec (due_at h x) (clock k)); [|lia].
      apply precedes_head. apply in_due_from. exists j.
      rewrite Nat.add_succ_r. auto.
    + assert (H : precedes x y (due_from clock h (S k) l)).
      { apply (IH (S k) i j); auto; try lia;
          rewrite Nat.add_succ_r; assumption. }
      cbn [due_from]. destruct (due_at h a <=? clock k);
        [apply precedes_cons|]; exact H.
Qed.

(** Of two due jobs, the one that comes first in the collection runs
    first, unless the other has a strictly earlier [next_run]: jobs
    that are due with the same [next_run] run in the order in which
    [every] made them. *)
Theorem ties_run_in_collection_order clock outcome w i j x y
  (Hready : Forall (fun r => ready clock outcome (heap w r)) (jobs w))
  (Hnext : Forall (has_next_run w) (jobs w))
  (Hi : nth_error (jobs w) i = Some x)
  (Hj : nth_error (jobs w) j = Some y)
  (Hij : (i < j)%nat)
  (Hx : due_at (heap w) x <= clock (i + ticks w)%nat)
  (Hy : due_at (heap w) y <= clock (j + ticks w)%nat)
  (Hle : due_at (heap w) x <= due_at (heap w) y) :
  let res := Scheduler.run_pending clock outcome w in
  fst res = Ok tt /\
  exists t1 t2 t3,
    trace (snd res)
    = trace w ++ t1 ++ Invoke x (the_action (heap w x))
              :: t2 ++ Invoke y (the_action (heap w y)) :: t3.
Proof.
  intros res. subst res.
  rewrite run_pending_closed by assumption. cbn [fst snd].
  split; [reflexivity|].
  pose proof (by_next_run_stable (heap w) x y _
                (due_from_precedes clock (heap w) (jobs w) (ticks w)
                   i j x y Hi Hj Hij Hx Hy) Hle) as (l1 & l2 & E & Hin).
  apply in_split in Hin. destruct Hin as (l2a & l2b & ->).
  rewrite ran_all_trace. cbn [trace heap]. rewrite runs_of_nil, E.
  rewrite map_app. cbn [map]. rewrite map_app. cbn [map].
  eexists _, _, _. reflexivity.
Qed.

Lemma ticking_valid t0 p k :
  0 <= p -> DT.valid t0 = true ->
  DT.valid (t0 + 100 * DT.us_per_second + p) = true ->
  DT.valid (ticking t0 k + p) = true.
Proof.
  intros Hp H0 H1. pose proof (ticking_range t0 k).
  apply (valid_between t0 (t0 + 100 * DT.us_per_second + p));
    [assumption | assumption | lia].
Qed.

Lemma ties_run_in_collection_order_witness :
  let clock := ticking (instant 738000 9 0 0) in
  let w := snd (tied_jobs clock empty_world) in
  let res := Scheduler.run_pending clock always_returns w in
  due_at (heap w) 0%nat = due_at (heap w) 1%nat /\
  fst res = Ok tt /\
  exists t1 t2 t3,
    trace (snd res)
    = trace w ++ t1 ++ Invoke 0%nat (the_action (heap w 0%nat))
              :: t2 ++ Invoke 1%nat (the_action (heap w 1%nat)) :: t3.
Proof.
  split; [vm_compute; reflexivity|].
  refine (ties_run_in_collection_order
            (ticking (instant 738000 9 0 0)) always_returns
            (snd (tied_jobs (ticking (instant 738000 9 0 0)) empty_world))
            0%nat 1%nat 0%nat 1%nat _ _ _ _ _ _ _ _).
  - change (jobs (snd (tied_jobs (ticking (instant 738000 9 0 0)) empty_world)))
      with [0; 1]%nat.
    constructor; [|constructor; [|constructor]].
    + apply (ready_unanchored _ _ _ 1%nat Seconds);
        [ reflexivity | reflexivity | reflexivity | reflexivity
        | intros k; apply ticking_valid;
          [ vm_compute; discriminate | reflexivity | reflexivity ]
        | reflexivity ].
    + apply (ready_unanchored _ _ _ 2%nat Seconds);
        [ reflexivity | reflexivity | reflexivity | reflexivity
        | intros k; apply ticking_valid;
          [ vm_compute; discriminate | reflexivity | reflexivity ]
        | reflexivity ].
  - change (jobs (snd (tied_jobs (ticking (instant 738000 9 0 0)) empty_world)))
      with [0; 1]%nat.
    constructor; [vm_compute; discriminate|].
    constructor; [vm_compute; discriminate|constructor].
  - reflexivity.
  - reflexivity.
  - lia.
  - vm_compute. discriminate.
  - vm_compute. discriminate.
  - vm_compute. discriminate.
Defined.

(** ** The anchor as it is written *)

Lemma written_reads n s :
  0 <= n <= 99 -> written s n ->
  int_of_str s = Ok n /\ split_colon s = [s].
Proof.
  intros Hn Hs.
  assert (E : exists k, n = Z.of_nat k /\ (k < 100)%nat).
  { exists (Z.to_nat n). lia. }
  destruct E as (k & -> & Hk).
  do 100 (destruct k as [|k];
          [destruct Hs as [->| ->]; vm_compute; split; reflexivity|]).
  lia.
Qed.

(** [at] reads an hour and a minute in range, each written with two
    digits or without a leading zero, around one colon, and stores
    exactly that hour and that minute, with zero seconds. *)
Theorem at_reads_hour_and_minute r w h m sh sm
  (Hdays : unit (heap w r) = Some Days)
  (Hh : 0 <= h <= 23)
  (Hm : 0 <= m <= 59)
  (Hsh : written sh h)
  (Hsm : written sm m) :
  at_ r (sh ++ String colon sm) w
  = (Ok r,
     mkWorld (update (heap w) r
                (set_at_time (Some (DT.mktime h m 0 0)) (heap w r)))
             (fresh w) (jobs w) (ticks w) (trace w)).
Proof.
  destruct (written_reads h sh ltac:(lia) Hsh) as [Ih Sh].
  destruct (written_reads m sm ltac:(lia) Hsm) as [Im Sm].
  assert (P : parse_fields (sh ++ String colon sm) = Ok (h, m)).
  { apply parse_fields_ok. exists sh, sm.
    rewrite split_colon_app, Sh, Sm. auto. }
  rewrite at_unfold, P.
  rewrite (proj2 (is_days_true _) Hdays). cbn [fst snd].
  rewrite (proj2 (in_range_true 0 23 h) Hh).
  rewrite (proj2 (in_range_true 0 59 m) Hm).
  reflexivity.
Qed.

Lemma at_reads_hour_and_minute_witness :
  let w := snd ((r <- Scheduler.every 1 ;; days r) empty_world) in
  at_ O "07:05" w
  = (Ok O,
     mkWorld (update (heap w) O
                (set_at_time (Some (DT.mktime 7 5 0 0)) (heap w O)))
             (fresh w) (jobs w) (ticks w) (trace w)).
Proof.
  refine (at_reads_hour_and_minute O
            (snd ((r <- Scheduler.every 1 ;; days r) empty_world))
            7 5 "07" "05" _ _ _ _ _).
  - reflexivity.
  - lia.
  - lia.
  - left. reflexivity.
  - left. reflexivity.
Defined.

(** ** The jobs a pass does not run *)

(** A job that is not due when [run_pending()] checks it, or that is
    not in the collection, is left exactly as it was by that pass,
    whatever other jobs run in it, and its action is not called. *)
Theorem run_pending_leaves_others_alone clock outcome w r
  (Hready : Forall (fun x => ready clock outcome (heap w x)) (jobs w))
  (Hnext : Forall (has_next_run w) (jobs w))
  (Hnot : forall i, nth_error (jobs w) i = Some r ->
                    clock (i + ticks w)%nat < due_at (heap w) r) :
  let res := Scheduler.run_pending clock outcome w in
  fst res = Ok tt /\
  heap (snd res) r = heap w r /\
  exists post,
    trace (snd res) = trace w ++ post /\
    forall a, ~ In (Invoke r a) post.
Proof.
  intros res. subst res.
  rewrite run_pending_closed by assumption. cbn [fst snd].
  assert (Hout : ~ In r (by_next_run (heap w)
                           (due_from clock (heap w) (ticks w) (jobs w)))).
  { intros H. apply (Permutation_in _ (by_next_run_perm _ _)) in H.
    apply in_due_from in H. destruct H as (i & Hi & Hc).
    specialize (Hnot i Hi). lia. }
  split; [reflexivity|]. split.
  - rewrite ran_all_other by exact Hout. reflexivity.
  - eexists. split.
    + rewrite ran_all_trace. cbn [trace heap]. rewrite runs_of_nil.
      reflexivity.
    + intros a H. apply invoke_in_map in H. contradiction.
Qed.

Lemma run_pending_leaves_others_alone_witness :
  let res := Scheduler.run_pending sample_clock always_returns sample_world in
  fst res = Ok tt /\
  heap (snd res) 2%nat = heap sample_world 2%nat /\
  exists post,
    trace (snd res) = trace sample_world ++ post /\
    forall a, ~ In (Invoke 2%nat a) post.
Proof.
  refine (run_pending_leaves_others_alone sample_clock always_returns
            sample_world 2%nat sample_world_ready
            sample_world_has_next_run _).
  change (jobs sample_world) with [0; 1; 2]%nat.
  intros [|[|[|[|i]]]] Hi; cbn in Hi; try discriminate Hi.
  vm_compute. reflexivity.
Defined.

(** ** An interval that is not positive *)

(** The interval is taken as it is given.  A job without an anchor
    whose interval is zero or negative gets, by a run, a [next_run]
    that is not later than the clock reading it was computed from: the
    job is due again at that reading and at every later one. *)
Theorem nonpositive_interval_stays_due clock outcome r w
  (Hready : ready clock outcome (heap w r))
  (Hi : interval (heap w r) <= 0)
  (Hat : at_time (heap w r) = None) :
  let res := run clock outcome r w in
  exists n,
    fst res = Ok tt /\
    next_run (heap (snd res) r) = Some n /\
    n <= clock (S (ticks w)) /\
    forall k, clock (S (ticks w)) <= clock k ->
              fst (should_run clock r
                     (mkWorld (heap (snd res)) (fresh w) (jobs w) k
                              (trace (snd res))))
              = Ok true.
Proof.
  intros res. subst res. rewrite run_of_ready by exact Hready. cbn [fst snd].
  destruct (ran_next_run clock r w) as [Hn _].
  destruct Hready as (a & u & Hf & Hu & _).
  rewrite (the_unit_some _ _ Hu) in Hn.
  unfold next_due in Hn. rewrite Hat in Hn.
  assert (Hle : clock (S (ticks w)) + interval (heap w r) * unit_us u
                <= clock (S (ticks w))).
  { pose proof (unit_us_pos u). nia. }
  eexists. split; [reflexivity|]. split; [exact Hn|]. split; [exact Hle|].
  intros k Hk. erewrite should_run_some by (cbn [heap]; exact Hn).
  cbn [fst ticks]. f_equal. apply Z.leb_le. lia.
Qed.

Lemma nonpositive_interval_stays_due_witness :
  let clock := ticking (instant 738000 9 0 0) in
  let w := snd ((r <- Scheduler.every 0 ;; _ <- seconds r ;;
                 do_ clock r 1%nat) empty_world) in
  let res := run clock always_returns O w in
  exists n,
    fst res = Ok tt /\
    next_run (heap (snd res) O) = Some n /\
    n <= clock (S (ticks w)) /\
    forall k, clock (S (ticks w)) <= clock k ->
              fst (should_run clock O
                     (mkWorld (heap (snd res)) (fresh w) (jobs w) k
                              (trace (snd res))))
              = Ok true.
Proof.
  refine (nonpositive_interval_stays_due
            (ticking (instant 738000 9 0 0)) always_returns O
            (snd ((r <- Scheduler.every 0 ;; _ <- seconds r ;;
                   do_ (ticking (instant 738000 9 0 0)) r 1%nat) empty_world))
            _ _ _).
  - apply (ready_unanchored _ _ _ 1%nat Seconds);
      [ reflexivity | reflexivity | reflexivity | reflexivity
      | intros k; apply ticking_valid;
        [ vm_compute; discriminate | reflexivity | reflexivity ]
      | reflexivity ].
  - vm_compute. discriminate.
  - reflexivity.
Defined.

(** ** An interval that is out of range *)

(** [do] on a job whose period is longer than a [timedelta] can hold,
    or leads from the clock reading to an instant outside the
    calendar, raises an overflow error.  By then the action is bound;
    [next_run] and [last_run] are as they were, and so are the
    collection and every other job. *)
Theorem do_out_of_range_raises clock r f w u
  (Hu : unit (heap w r) = Some u)
  (Hbig : DT.max_delta_days
          < Z.abs (interval (heap w r) * unit_us u / DT.us_per_day) \/
          ~ (0 <= clock (ticks w) + interval (heap w r) * unit_us u
             < DT.max_ordinal * DT.us_per_day)) :
  let res := do_ clock r f w in
  fst res = Raise OverflowError /\
  job_func (heap (snd res) r) = Some f /\
  next_run (heap (snd res) r) = next_run (heap w r) /\
  last_run (heap (snd res) r) = last_run (heap w r) /\
  jobs (snd res) = jobs w /\
  forall r', r' <> r -> heap (snd res) r' = heap w r'.
Proof.
  intros res. subst res. rewrite do_unfold.
  unfold _schedule_next_run. unfold_m. cbn [heap ticks].
  rewrite update_same. cbn [unit set_job_func interval]. rewrite Hu.
  unfold timedelta_of, DT.mk_timedelta.
  destruct (andb _ _) eqn:Ht.
  - apply in_range_true in Ht.
    destruct Hbig as [Hbig|Hbig]; [lia|].
    cbn. unfold DT.add.
    destruct (DT.valid _) eqn:Hv.
    + unfold DT.valid in Hv. rewrite andb_true_iff, Z.leb_le, Z.ltb_lt in Hv.
      contradiction.
    + cbn. rewrite !update_same. cbn.
      repeat split; try reflexivity.
      intros r' Hr. rewrite !update_other by exact Hr. reflexivity.
  - cbn. rewrite update_same. cbn.
    repeat split; try reflexivity.
    intros r' Hr. rewrite update_other by exact Hr. reflexivity.
Qed.

Lemma do_out_of_range_raises_witness :
  let clock := ticking (instant 738000 9 0 0) in
  let w := snd ((r <- Scheduler.every 1000000000 ;; days r) empty_world) in
  let res := do_ clock O 1%nat w in
  fst res = Raise OverflowError /\
  job_func (heap (snd res) O) = Some 1%nat /\
  next_run (heap (snd res) O) = next_run (heap w O) /\
  last_run (heap (snd res) O) = last_run (heap w O) /\
  jobs (snd res) = jobs w /\
  forall r', r' <> O -> heap (snd res) r' = heap w r'.
Proof.
  refine (do_out_of_range_raises
            (ticking (instant 738000 9 0 0)) O 1%nat
            (snd ((r <- Scheduler.every 1000000000 ;; days r) empty_world))
            Days _ _).
  - reflexivity.
  - left. vm_compute. reflexivity.
Defined.

(** ** A delay that [time.sleep] refuses *)

(** [run_all] with a delay that [time.sleep] refuses, on a collection
    that is not empty, runs the first job to its end, action and
    bookkeeping, and then fails in the sleep: with an overflow error
    when the delay is beyond [max_sleep] on either side, and with a
    value error when it is negative within that range.  No other job
    runs. *)
Theorem run_all_refused_delay clock outcome w d r l
  (Hd : d < 0 \/ max_sleep < d)
  (Hj : jobs w = r :: l)
  (Hready : ready clock outcome (heap w r)) :
  let res := Scheduler.run_all clock outcome d w in
  fst res = Raise (if (d <? - max_sleep) || (max_sleep <? d)
                   then OverflowError else ValueError) /\
  trace (snd res) = trace w ++ [Invoke r (the_action (heap w r))] /\
  last_run (heap (snd res) r) = Some (clock (ticks w)) /\
  next_run (heap (snd res) r)
  = Some (next_due (heap w r) (the_unit (heap w r)) (clock (S (ticks w)))) /\
  forall r', r' <> r -> heap (snd res) r' = heap w r'.
Proof.
  intros res. subst res. unfold Scheduler.run_all.
  erewrite bind_ok by reflexivity. rewrite Hj. cbn [for_each].
  assert (E : (run clock outcome r ;;; sleep d) w
              = (Raise (if (d <? - max_sleep) || (max_sleep <? d)
                        then OverflowError else ValueError),
                 ran clock [] r w)).
  { erewrite bind_ok by (apply run_of_ready; exact Hready).
    rewrite sleep_cases. destruct (orb _ _) eqn:Ho; [reflexivity|].
    apply orb_false_iff in Ho. destruct Ho as [_ Ho].
    apply Z.ltb_ge in Ho.
    destruct (Z.ltb_spec d 0); [reflexivity|lia]. }
  erewrite bind_raise by exact E.
  cbn [fst snd]. destruct (ran_next_run clock r w) as [Hn Hl].
  split; [reflexivity|]. split.
  { unfold ran. cbn [trace]. reflexivity. }
  split; [exact Hl|]. split; [exact Hn|].
  intros r' Hr. unfold ran. cbn [heap]. apply update_other. exact Hr.
Qed.

Lemma run_all_refused_delay_witness :
  let res := Scheduler.run_all sample_clock always_returns (-1) sample_world in
  fst res = Raise (if (-1 <? - max_sleep) || (max_sleep <? -1)
                   then OverflowError else ValueError) /\
  trace (snd res)
  = trace sample_world ++ [Invoke O (the_action (heap sample_world O))] /\
  last_run (heap (snd res) O) = Some (sample_clock (ticks sample_world)) /\
  next_run (heap (snd res) O)
  = Some (next_due (heap sample_world O) (the_unit (heap sample_world O))
                   (sample_clock (S (ticks sample_world)))) /\
  forall r', r' <> O -> heap (snd res) r' = heap sample_world r'.
Proof.
  refine (run_all_refused_delay sample_clock always_returns sample_world
            (-1) O [1; 2]%nat _ _ _).
  - left. lia.
  - reflexivity.
  - exact sample_job_ready.
Defined.

(** A second below zero is a value error; ten thousand million
    seconds, below zero or above, are an overflow error; and so on
    either side of [max_sleep]. *)
Example sleep_sample :
  fst (sleep (- 1000000) empty_world) = Raise ValueError /\
  fst (sleep (- (10 ^ 10 * 1000000)) empty_world) = Raise OverflowError /\
  fst (sleep (10 ^ 10 * 1000000) empty_world) = Raise OverflowError /\
  fst (sleep (9223372036 * 1000000) empty_world) = Ok tt /\
  fst (sleep (9223372037 * 1000000) empty_world) = Raise OverflowError /\
  fst (sleep (- (9223372036 * 1000000)) empty_world) = Raise ValueError /\
  fst (sleep (- (9223372037 * 1000000)) empty_world) = Raise OverflowError.
Proof. repeat split; vm_compute; reflexivity. Qed.

(** ** The same-day correction *)

Lemma corrected_next_run clock r w w' a :
  at_time (heap w r) = Some a ->
  DT.time_ok a -> DT.microsecond a = 0 ->
  last_run (heap w r) = None ->
  DT.time_gt a (DT.time_of (clock (S (ticks w)))) = true ->
  _schedule_next_run clock r w = (Ok tt, w') ->
  next_run (heap w' r)
  = Some ((DT.day_of (clock (ticks w)) + interval (heap w r) - 1)
          * DT.us_per_day + DT.time_us a) /\
  DT.tod_of (clock (S (ticks w))) < DT.time_us a.
Proof.
  intros Ha Hok Hus Hl Hg Hdone.
  apply schedule_inv in Hdone. destruct Hdone as (u & Hu & Hd & ->).
  assert (u = Days) by (apply Hd; congruence). subst u.
  rewrite next_run_scheduled. unfold due_time. rewrite Ha, Hl, Hg.
  change (unit_us Days) with DT.us_per_day. rewrite replace_after_days.
  rewrite DTFacts.time_gt_now in Hg by exact Hok. apply Z.ltb_lt in Hg.
  split; [|exact Hg]. f_equal.
  unfold DT.whole_second, DT.time_us.
  cbn [DT.hour DT.minute DT.second DT.microsecond]. rewrite Hus.
  change DT.us_per_day with 86400000000. lia.
Qed.

(** When the same-day correction is applied to a job with a positive
    interval, and the two clock readings of the algorithm fall on the
    same day, [next_run] is the anchor on the day [interval - 1] days
    after that day, and it is strictly later than both readings. *)
Theorem corrected_schedule_is_later clock r w w' a
  (Hi : 0 < interval (heap w r))
  (Ha : at_time (heap w r) = Some a)
  (Hok : DT.time_ok a)
  (Hus : DT.microsecond a = 0)
  (Hl : last_run (heap w r) = None)
  (Hg : DT.time_gt a (DT.time_of (clock (S (ticks w)))) = true)
  (Hday : DT.day_of (clock (S (ticks w))) = DT.day_of (clock (ticks w)))
  (Hmono : clock (ticks w) <= clock (S (ticks w)))
  (Hdone : _schedule_next_run clock r w = (Ok tt, w')) :
  exists n,
    next_run (heap w' r) = Some n /\
    n = (DT.day_of (clock (ticks w)) + interval (heap w r) - 1)
        * DT.us_per_day + DT.time_us a /\
    clock (ticks w) < n /\ clock (S (ticks w)) < n.
Proof.
  destruct (corrected_next_run clock r w w' a Ha Hok Hus Hl Hg Hdone)
    as [Hn Hlt].
  eexists. split; [exact Hn|]. split; [reflexivity|].
  pose proof (DTFacts.day_tod (clock (S (ticks w)))) as Hc.
  rewrite Hday in Hc.
  change DT.us_per_day with 86400000000 in *. lia.
Qed.

(** When midnight falls between the two clock readings of the
    algorithm, and the anchor is later than the time of day of the
    second, the correction puts the [next_run] of a job of interval 1
    on the day of the first reading: it is earlier than the second
    reading, and the job is due at that reading and from then on. *)
Theorem correction_across_midnight clock r w w' a
  (Hi : interval (heap w r) = 1)
  (Ha : at_time (heap w r) = Some a)
  (Hok : DT.time_ok a)
  (Hus : DT.microsecond a = 0)
  (Hl : last_run (heap w r) = None)
  (Hg : DT.time_gt a (DT.time_of (clock (S (ticks w)))) = true)
  (Hday : DT.day_of (clock (ticks w)) < DT.day_of (clock (S (ticks w))))
  (Hdone : _schedule_next_run clock r w = (Ok tt, w')) :
  exists n,
    next_run (heap w' r) = Some n /\
    n = DT.day_of (clock (ticks w)) * DT.us_per_day + DT.time_us a /\
    n < clock (S (ticks w)) /\
    forall k, clock (S (ticks w)) <= clock k ->
              fst (should_run clock r
                     (mkWorld (heap w') (fresh w') (jobs w') k (trace w')))
              = Ok true.
Proof.
  destruct (corrected_next_run clock r w w' a Ha Hok Hus Hl Hg Hdone)
    as [Hn Hlt].
  rewrite Hi in Hn.
  replace (DT.day_of (clock (ticks w)) + 1 - 1)
    with (DT.day_of (clock (ticks w))) in Hn by lia.
  pose proof (DTFacts.day_tod (clock (S (ticks w)))) as Hc.
  pose proof (DTFacts.tod_range (clock (S (ticks w)))) as Ht.
  pose proof (DTFacts.time_us_range a Hok) as Hr.
  assert (Hpast : DT.day_of (clock (ticks w)) * DT.us_per_day + DT.time_us a
                  < clock (S (ticks w))).
  { change DT.us_per_day with 86400000000 in *. nia. }
  eexists. split; [exact Hn|]. split; [reflexivity|]. split; [exact Hpast|].
  intros k Hk. erewrite should_run_some by (cbn [heap]; exact Hn).
  cbn [fst ticks]. f_equal. apply Z.leb_le. lia.
Qed.

Lemma corrected_schedule_is_later_witness :
  let clock := ticking (instant 738000 9 0 0) in
  let w := snd ((r <- Scheduler.every 3 ;; _ <- days r ;; at_ r "10:30")
                  empty_world) in
  exists n,
    next_run (heap (scheduled clock O Days w) O) = Some n /\
    n = (DT.day_of (clock (ticks w)) + interval (heap w O) - 1)
        * DT.us_per_day + DT.time_us (DT.mktime 10 30 0 0) /\
    clock (ticks w) < n /\ clock (S (ticks w)) < n.
Proof.
  refine (corrected_schedule_is_later (ticking (instant 738000 9 0 0)) O
            (snd ((r <- Scheduler.every 3 ;; _ <- days r ;; at_ r "10:30")
                    empty_world))
            _ (DT.mktime 10 30 0 0) _ _ _ _ _ _ _ _ _).
  - reflexivity.
  - reflexivity.
  - unfold DT.time_ok. cbn. lia.
  - reflexivity.
  - reflexivity.
  - reflexivity.
  - reflexivity.
  - vm_compute. discriminate.
  - apply schedule_completes; try reflexivity.
Defined.

Lemma correction_across_midnight_witness :
  let clock := ticking (instant 738000 23 59 59) in
  let w := snd ((r <- Scheduler.every 1 ;; _ <- days r ;; at_ r "10:30")
                  empty_world) in
  let w' := scheduled clock O Days w in
  exists n,
    next_run (heap w' O) = Some n /\
    n = DT.day_of (clock (ticks w)) * DT.us_per_day
        + DT.time_us (DT.mktime 10 30 0 0) /\
    n < clock (S (ticks w)) /\
    forall k, clock (S (ticks w)) <= clock k ->
              fst (should_run clock O
                     (mkWorld (heap w') (fresh w') (jobs w') k (trace w')))
              = Ok true.
Proof.
  refine (correction_across_midnight (ticking (instant 738000 23 59 59)) O
            (snd ((r <- Scheduler.every 1 ;; _ <- days r ;; at_ r "10:30")
                    empty_world))
            _ (DT.mktime 10 30 0 0) _ _ _ _ _ _ _ _).
  - reflexivity.
  - reflexivity.
  - unfold DT.time_ok. cbn. lia.
  - reflexivity.
  - reflexivity.
  - reflexivity.
  - reflexivity.
  - apply schedule_completes; try reflexivity.
Defined.

(** ** The queries on a collection with an unscheduled job *)

Lemma min_from_unscheduled l : forall m w,
  (next_run (heap w m) = None /\ l <> []) \/
  (exists x, In x l /\ next_run (heap w x) = None) ->
  fst (Scheduler.min_from m l w) = Raise TypeError.
Proof.
  induction l as [|x l IH]; intros m w H; cbn [Scheduler.min_from].
  - destruct H as [[_ H]|(x & [] & _)]. congruence.
  - unfold bind at 1. unfold job_lt. unfold_m.
    destruct (next_run (heap w x)) as [nx|] eqn:Hx; [|reflexivity].
    destruct (next_run (heap w m)) as [nm|] eqn:Hm; [|reflexivity].
    apply IH. right.
    destruct H as [[H _]|(y & [<-|Hy] & Hn)]; try congruence.
    exists y. auto.
Qed.

(** A job that is in the collection without a [next_run] (its
    configuration was not completed by [do]) breaks the queries:
    [idle_seconds] fails with a type error, and so does [next_run] as
    soon as the collection holds another job; when it holds only that
    job, [next_run] returns nothing, no comparison being made. *)
Theorem queries_with_unscheduled_job clock w r
  (Hin : In r (jobs w))
  (Hnone : next_run (heap w r) = None) :
  fst (Scheduler.idle_seconds clock w) = Raise TypeError /\
  (jobs w = [r] -> Scheduler.next_run w = (Ok None, w)) /\
  ((2 <= List.length (jobs w))%nat ->
   fst (Scheduler.next_run w) = Raise TypeError).
Proof.
  assert (Hmany : (2 <= List.length (jobs w))%nat ->
                  fst (Scheduler.next_run w) = Raise TypeError).
  { intros Hlen. unfold Scheduler.next_run, Scheduler.get_jobs.
    unfold bind at 1.
    destruct (jobs w) as [|m [|x l]] eqn:Hj; cbn in Hlen; try lia.
    cbn [Scheduler.py_min].
    pose proof (min_from_unscheduled (x :: l) m w) as Hm.
    unfold bind.
    destruct (Scheduler.min_from m (x :: l) w) as [[v|e] w1];
      cbn [fst] in *.
    - assert (E : @Ok ref v = Raise TypeError); [|discriminate E].
      apply Hm. destruct Hin as [<-|Hin].
      + left. split; [exact Hnone|discriminate].
      + right. exists r. auto.
    - assert (E : @Raise ref e = Raise TypeError); [|congruence].
      apply Hm. destruct Hin as [<-|Hin].
      + left. split; [exact Hnone|discriminate].
      + right. exists r. auto. }
  assert (Hone : jobs w = [r] -> Scheduler.next_run w = (Ok None, w)).
  { intros Hj. unfold Scheduler.next_run, Scheduler.get_jobs.
    unfold bind at 1. rewrite Hj. cbn [Scheduler.py_min Scheduler.min_from].
    unfold_m. rewrite Hnone. reflexivity. }
  split; [|split; assumption].
  unfold Scheduler.idle_seconds.
  destruct (jobs w) as [|m [|x l]] eqn:Hj; [destruct Hin| |].
  - destruct Hin as [->|[]].
    erewrite bind_ok by (apply Hone; reflexivity).
    unfold_m. reflexivity.
  - unfold bind at 1.
    specialize (Hmany ltac:(cbn; lia)).
    destruct (Scheduler.next_run w) as [[v|e] w1]; cbn [fst] in *;
      [discriminate Hmany|congruence].
Qed.

Lemma queries_with_unscheduled_job_witness :
  let clock := ticking (instant 738000 9 0 0) in
  let w := snd ((r <- Scheduler.every 1 ;; seconds r) empty_world) in
  fst (Scheduler.idle_seconds clock w) = Raise TypeError /\
  (jobs w = [O] -> Scheduler.next_run w = (Ok None, w)) /\
  ((2 <= List.length (jobs w))%nat ->
   fst (Scheduler.next_run w) = Raise TypeError).
Proof.
  refine (queries_with_unscheduled_job (ticking (instant 738000 9 0 0))
            (snd ((r <- Scheduler.every 1 ;; seconds r) empty_world))
            O _ _).
  - left. reflexivity.
  - reflexivity.
Defined.
